(** * PonyTracker: the domain layer of [tracker/models.py]

    A shallow embedding of the Django models of the tracker application
    (projects, labels, milestones, issues, events, read states) and of the
    model methods that query and update them.  The database is a record of
    tables; a table is the list of its rows, each row carrying its primary
    key; model methods are functions over the database, and the ones that
    write return the new database. *)

From stdpp Require Import base decidable option list strings gmap.
From Stdlib Require Import ZArith Lia.

Local Open Scope Z_scope.

(** ** Exceptions

    The exceptions the modelled methods can raise.  [ObjectDoesNotExist] is
    the only one the source catches. *)

Inductive exn :=
  | ObjectDoesNotExist
  | MultipleObjectsReturned
  | ZeroDivisionError
  | TypeError
  | ValueError
  | OverflowError.

Inductive result (A : Type) :=
  | Ok (a : A)
  | Raise (e : exn).
Arguments Ok {A} a.
Arguments Raise {A} e.

#[global] Instance result_ret : MRet result := λ A a, Ok a.
#[global] Instance result_fmap : FMap result := λ A B f m,
  match m with
  | Ok a => Ok (f a)
  | Raise e => Raise e
  end.
#[global] Instance result_bind : MBind result := λ A B f m,
  match m with
  | Ok a => f a
  | Raise e => Raise e
  end.

(** ** Time

    A [datetime] is a number of microseconds counted from
    0001-01-01T00:00:00 UTC (the settings have [USE_TZ = True] and
    [TIME_ZONE = 'UTC'], so every stored value is an aware UTC instant).
    Python's [datetime] covers the years 1 to 9999 and [timedelta] at most
    999999999 days on either side; arithmetic that leaves these ranges
    raises [OverflowError]. *)

Definition datetime := Z.

Definition US_PER_MINUTE : Z := 60 * 1000000.
Definition US_PER_DAY : Z := 86400 * 1000000.
Definition DATETIME_END : Z := 3652059 * US_PER_DAY.

Definition timedelta_minutes (m : Z) : result Z :=
  let us := m * US_PER_MINUTE in
  if decide (-999999999 ≤ us `div` US_PER_DAY ≤ 999999999)
  then Ok us else Raise OverflowError.

Definition datetime_add (d : datetime) (delta : Z) : result datetime :=
  if decide (0 ≤ d + delta < DATETIME_END)
  then Ok (d + delta) else Raise OverflowError.

(** ** Users

    [accounts.models.User] is not among the sources; the models use of a
    user what Django's authentication gives: [request.user] is either the
    [AnonymousUser], whose [is_authenticated] is false, or a stored user,
    whose [is_authenticated] is true and who is identified by its primary
    key. *)

Inductive User :=
  | AnonymousUser
  | StoredUser (pk : Z).

Definition is_authenticated (u : User) : bool :=
  match u with
  | AnonymousUser => false
  | StoredUser _ => true
  end.

(** [author == request.user]: model instances are equal when their primary
    keys are; no stored user equals the anonymous one. *)
Definition user_is (author : Z) (u : User) : bool :=
  match u with
  | AnonymousUser => false
  | StoredUser pk => bool_decide (author = pk)
  end.

(** ** Rows *)

Module Settings.
Definition EDIT_NOTIMEOUT : Z := 0.
Definition EDIT_TIMEOUT : Z := 1.
Definition EDIT_NOMORECOMMENT : Z := 2.

Record t := mk {
  items_per_page : Z;
  edit_policy : Z;
  edit_policy_timeout : Z;
}.
End Settings.

Module Project.
Record t := mk {
  id : Z;
  display_name : string;
  name : string;
  description : string;
  access : Z;
  archived : bool;
}.
End Project.

Module Label.
Record t := mk {
  id : Z;
  project : Z;
  name : string;
  deleted : bool;
  color : string;
  inverted : bool;
}.
End Label.

Module Milestone.
Record t := mk {
  id : Z;
  project : Z;
  name : string;
  due_date : option datetime;
  closed : bool;
  deleted : bool;
}.
End Milestone.

Module Issue.
Record t := mk {
  primarykey : Z;
  project : Z;
  id : Z;
  title : string;
  author : Z;
  opened_at : datetime;
  due_date : option datetime;
  closed : bool;
  milestone : option Z;
  assignee : option Z;
}.

Definition with_milestone (m : option Z) (i : t) : t :=
  mk (primarykey i) (project i) (id i) (title i) (author i) (opened_at i)
     (due_date i) (closed i) m (assignee i).
End Issue.

Module ReadState.
Record t := mk {
  id : Z;
  issue : Z;
  user : Z;
  lastread : datetime;
}.

Definition with_lastread (d : datetime) (r : t) : t :=
  mk (id r) (issue r) (user r) d.
End ReadState.

(** The values found in the JSON payload of an event. *)
Inductive json :=
  | JInt (n : Z)
  | JStr (s : string).

Module Event.
Definition UNKNOW : Z := 0.
Definition CLOSE : Z := 1.
Definition REOPEN : Z := 2.
Definition RENAME : Z := 3.
Definition ADD_LABEL : Z := 4.
Definition DEL_LABEL : Z := 5.
Definition SET_MILESTONE : Z := 6.
Definition CHANGE_MILESTONE : Z := 7.
Definition UNSET_MILESTONE : Z := 8.
Definition REFERENCE : Z := 9.
Definition COMMENT : Z := 10.
Definition DESCRIBE : Z := 11.
Definition ASSIGN : Z := 12.
Definition UNASSIGN : Z := 13.
Definition SET_DUE_DATE : Z := 14.
Definition CHANGE_DUE_DATE : Z := 15.
Definition UNSET_DUE_DATE : Z := 16.

Record t := mk {
  id : Z;
  issue : Z;
  date : datetime;
  author : Z;
  code : Z;
  args : gmap string json;
  additionnal_section : string;
}.

Definition with_additionnal_section (s : string) (e : t) : t :=
  mk (id e) (issue e) (date e) (author e) (code e) (args e) s.

Definition editable (self : t) : bool :=
  bool_decide (code self = COMMENT) || bool_decide (code self = DESCRIBE).
End Event.

(** ** The database

    One list of rows per table, the rows of the many-to-many relation
    [Issue.labels] as pairs (issue primary key, label id), and the sequences
    from which the [AutoField] primary keys are drawn. *)

Record DB := mkDB {
  tracker_label : list Label.t;
  tracker_milestone : list Milestone.t;
  tracker_issue : list Issue.t;
  tracker_issue_labels : list (Z * Z);
  tracker_readstate : list ReadState.t;
  tracker_event : list Event.t;
  seq_issue : Z;
  seq_readstate : Z;
  seq_event : Z;
}.

Definition empty_db : DB := mkDB [] [] [] [] [] [] 1 1 1.

Definition set_labels (f : list Label.t → list Label.t) (db : DB) : DB :=
  mkDB (f (tracker_label db)) (tracker_milestone db) (tracker_issue db)
       (tracker_issue_labels db) (tracker_readstate db) (tracker_event db)
       (seq_issue db) (seq_readstate db) (seq_event db).

Definition set_milestones (f : list Milestone.t → list Milestone.t) (db : DB)
  : DB :=
  mkDB (tracker_label db) (f (tracker_milestone db)) (tracker_issue db)
       (tracker_issue_labels db) (tracker_readstate db) (tracker_event db)
       (seq_issue db) (seq_readstate db) (seq_event db).

Definition set_issues (f : list Issue.t → list Issue.t) (db : DB) : DB :=
  mkDB (tracker_label db) (tracker_milestone db) (f (tracker_issue db))
       (tracker_issue_labels db) (tracker_readstate db) (tracker_event db)
       (seq_issue db) (seq_readstate db) (seq_event db).

Definition set_issue_labels (f : list (Z * Z) → list (Z * Z)) (db : DB) : DB :=
  mkDB (tracker_label db) (tracker_milestone db) (tracker_issue db)
       (f (tracker_issue_labels db)) (tracker_readstate db) (tracker_event db)
       (seq_issue db) (seq_readstate db) (seq_event db).

Definition set_readstates (f : list ReadState.t → list ReadState.t) (db : DB) : DB :=
  mkDB (tracker_label db) (tracker_milestone db) (tracker_issue db)
       (tracker_issue_labels db) (f (tracker_readstate db)) (tracker_event db)
       (seq_issue db) (seq_readstate db) (seq_event db).

Definition set_events (f : list Event.t → list Event.t) (db : DB) : DB :=
  mkDB (tracker_label db) (tracker_milestone db) (tracker_issue db)
       (tracker_issue_labels db) (tracker_readstate db) (f (tracker_event db))
       (seq_issue db) (seq_readstate db) (seq_event db).

(** ** Querysets *)

Section queryset.
Context {A : Type} (pk : A → Z).

(** [qs.get()]: the single row of the queryset. *)
Definition qs_get (qs : list A) : result A :=
  match qs with
  | [] => Raise ObjectDoesNotExist
  | [x] => Ok x
  | _ :: _ :: _ => Raise MultipleObjectsReturned
  end.

(** [qs.first()] on a model without default ordering: the row with the
    least primary key. *)
Fixpoint qs_first (qs : list A) : option A :=
  match qs with
  | [] => None
  | x :: qs' =>
      match qs_first qs' with
      | Some y => if decide (pk x ≤ pk y) then Some x else Some y
      | None => Some x
      end
  end.

(** [qs.last()] on a model without default ordering: the row with the
    greatest primary key. *)
Fixpoint qs_last (qs : list A) : option A :=
  match qs with
  | [] => None
  | x :: qs' =>
      match qs_last qs' with
      | Some y => if decide (pk y ≤ pk x) then Some x else Some y
      | None => Some x
      end
  end.

(** [qs.count()]. *)
Definition qs_count (qs : list A) : Z := Z.of_nat (length qs).

(** [qs.exists()]. *)
Definition qs_exists (qs : list A) : bool :=
  match qs with
  | [] => false
  | _ :: _ => true
  end.

(** [row.save()] of a row that has a primary key: UPDATE the stored row
    with that key, INSERT the row when there is none. *)
Definition save_row (row : A) (table : list A) : list A :=
  if qs_exists (filter (λ r, pk r = pk row) table)
  then (λ r, if decide (pk r = pk row) then row else r) <$> table
  else table ++ [row].

(** [row.delete()]. *)
Definition delete_row (row : A) (table : list A) : list A :=
  filter (λ r, pk r ≠ pk row) table.
End queryset.

(** ** Related managers *)

(** [project.issues], [milestone.issues]. *)
Definition Project_issues (db : DB) (self : Project.t) : list Issue.t :=
  filter (λ i, Issue.project i = Project.id self) (tracker_issue db).

Definition Milestone_issues (db : DB) (self : Milestone.t) : list Issue.t :=
  filter (λ i, Issue.milestone i = Some (Milestone.id self)) (tracker_issue db).

(** [issue.events], [issue.readstates], [issue.labels]. *)
Definition Issue_events (db : DB) (self : Issue.t) : list Event.t :=
  filter (λ e, Event.issue e = Issue.primarykey self) (tracker_event db).

Definition Issue_readstates (db : DB) (self : Issue.t) : list ReadState.t :=
  filter (λ r, ReadState.issue r = Issue.primarykey self) (tracker_readstate db).

Definition Issue_labels (db : DB) (self : Issue.t) : list Label.t :=
  filter (λ l, (Issue.primarykey self, Label.id l) ∈ tracker_issue_labels db)
         (tracker_label db).

(** ** Read states *)

(** [self.readstates.get(user=user)].  The lookup wants a stored user; the
    anonymous user is no value for the foreign key. *)
Definition readstates_get (db : DB) (self : Issue.t) (user : User)
  : result ReadState.t :=
  match user with
  | AnonymousUser => Raise TypeError
  | StoredUser u =>
      qs_get (filter (λ r, ReadState.user r = u) (Issue_readstates db self))
  end.

Definition have_unread_message (db : DB) (self : Issue.t) (user : User)
  : result bool :=
  if negb (is_authenticated user) then Ok false
  else
    match readstates_get db self user with
    | Raise ObjectDoesNotExist => Ok true
    | Raise e => Raise e
    | Ok readstate =>
        Ok (qs_exists (filter (λ e, ReadState.lastread readstate < Event.date e)
                              (Issue_events db self)))
    end.

Definition get_unread_event_nb (db : DB) (self : Issue.t) (user : User)
  : result Z :=
  if negb (is_authenticated user) then Ok 0
  else
    match readstates_get db self user with
    | Raise ObjectDoesNotExist => Ok (qs_count (Issue_events db self))
    | Raise e => Raise e
    | Ok readstate =>
        Ok (qs_count (filter (λ e, ReadState.lastread readstate < Event.date e)
                             (Issue_events db self)))
    end.

(** [ReadState(issue=self, user=user)] with [lastread] assigned, then
    [save()]: the INSERT of a new read state.  The [auto_now_add] column
    takes the time of the INSERT, not the one assigned. *)
Definition ReadState_create (now_add : datetime) (db : DB) (issue : Z)
    (user : User) : result DB :=
  match user with
  | AnonymousUser => Raise ValueError
  | StoredUser u =>
      let readstate := ReadState.mk (seq_readstate db) issue u now_add in
      Ok (mkDB (tracker_label db) (tracker_milestone db) (tracker_issue db)
               (tracker_issue_labels db) (tracker_readstate db ++ [readstate])
               (tracker_event db) (seq_issue db) (seq_readstate db + 1)
               (seq_event db))
  end.

(** [mark_as_read] reads the clock once ([now]); when it has to INSERT a
    read state the clock is read again ([now_add]).  The result is the
    returned date and the new database. *)
Definition mark_as_read (now now_add : datetime) (db : DB) (self : Issue.t)
    (user : User) : result (datetime * DB) :=
  if negb (is_authenticated user) then Ok (now, db)
  else
    match readstates_get db self user with
    | Ok readstate =>
        Ok (ReadState.lastread readstate,
            set_readstates
              (save_row ReadState.id (ReadState.with_lastread now readstate)) db)
    | Raise ObjectDoesNotExist =>
        db ← ReadState_create now_add db (Issue.primarykey self) user;
        Ok (Issue.opened_at self, db)
    | Raise e => Raise e
    end.

(** The loop of [Project.get_unread_issues_nb]. *)
Fixpoint count_unread (db : DB) (user : User) (issues : list Issue.t) (count : Z)
  : result Z :=
  match issues with
  | [] => Ok count
  | issue :: rest =>
      unread ← have_unread_message db issue user;
      count_unread db user rest (if unread : bool then count + 1 else count)
  end.

Definition get_unread_issues_nb (db : DB) (self : Project.t) (user : User)
  : result Z :=
  if negb (is_authenticated user) then Ok 0
  else count_unread db user (Project_issues db self) 0.

(** ** Project: the default queries on labels and milestones *)

Definition Project_labels (db : DB) (self : Project.t) : list Label.t :=
  filter (λ l, Label.project l = Project.id self ∧ Label.deleted l = false)
         (tracker_label db).

Definition Project_milestones (db : DB) (self : Project.t) : list Milestone.t :=
  filter (λ m, Milestone.project m = Project.id self ∧ Milestone.deleted m = false)
         (tracker_milestone db).

(** [Label.objects.get(id=...)], the lookup with which [Event.activity] and
    [Event.__str__] resolve the label named by an ADD_LABEL or DEL_LABEL
    event; the manager is the default one and does not look at [deleted]. *)
Definition Label_objects_get (db : DB) (id : Z) : result Label.t :=
  qs_get (filter (λ l, Label.id l = id) (tracker_label db)).

(** Following a foreign key: the row stored under the referenced key. *)
Definition Milestone_objects_get (db : DB) (id : Z) : result Milestone.t :=
  qs_get (filter (λ m, Milestone.id m = id) (tracker_milestone db)).

Definition Issue_objects_get (db : DB) (primarykey : Z) : result Issue.t :=
  qs_get (filter (λ i, Issue.primarykey i = primarykey) (tracker_issue db)).

(** ** Soft deletion *)

Definition Label_set_deleted (label : Label.t) : Label.t :=
  Label.mk (Label.id label) (Label.project label) (Label.name label) true
           (Label.color label) (Label.inverted label).

Definition Milestone_set_deleted (milestone : Milestone.t) : Milestone.t :=
  Milestone.mk (Milestone.id milestone) (Milestone.project milestone)
               (Milestone.name milestone) (Milestone.due_date milestone)
               (Milestone.closed milestone) true.

(** Modelled from the spec: the views that delete a label are not among the
    sources.  The spec has soft-deletion hide "records from default queries
    without removing history referencing them": the [deleted] flag of the
    record is set and the record saved, [label.deleted = True] then
    [label.save()]. *)
Definition soft_delete_label (db : DB) (label : Label.t) : DB :=
  set_labels (save_row Label.id (Label_set_deleted label)) db.

(** Modelled from the spec: the views that delete a milestone are not among
    the sources.  As for labels, the [deleted] flag of the record is set and
    the record saved. *)
Definition soft_delete_milestone (db : DB) (milestone : Milestone.t) : DB :=
  set_milestones (save_row Milestone.id (Milestone_set_deleted milestone)) db.


(** ** Milestone: progress

    [100 * closed / total] is Python 3's true division of two integers: the
    binary64 number nearest to the exact quotient, ties to even.  A finite
    binary64 number is kept as [mantissa * 2 ^ exponent]; [int(...)] then
    truncates it toward zero. *)

Record float := mkFloat {
  mantissa : Z;
  exponent : Z;
}.

(** The integer nearest to [a / b], ties to even, for [0 ≤ a] and [0 < b]. *)
Definition round_half_even (a b : Z) : Z :=
  let q := a `div` b in
  let r := a `mod` b in
  if decide (2 * r < b) then q
  else if decide (b < 2 * r) then q + 1
  else if Z.even q then q else q + 1.

(** [binade a b] is the integer [j] with [2 ^ j ≤ a / b < 2 ^ (j + 1)], for
    [0 < a] and [0 < b]. *)
Definition binade (a b : Z) : Z :=
  let d := Z.log2 a - Z.log2 b in
  if decide (b * 2 ^ Z.max d 0 ≤ a * 2 ^ Z.max (- d) 0) then d else d - 1.

Definition true_divide (a b : Z) : result float :=
  if decide (b = 0) then Raise ZeroDivisionError
  else if decide (a = 0) then Ok (mkFloat 0 0)
  else
    let e := Z.max (binade (Z.abs a) (Z.abs b) - 52) (-1074) in
    let m := round_half_even (Z.abs a * 2 ^ Z.max (- e) 0)
                             (Z.abs b * 2 ^ Z.max e 0) in
    if decide (2 ^ 1024 ≤ m * 2 ^ Z.max e 0) then Raise OverflowError
    else Ok (mkFloat (Z.sgn a * Z.sgn b * m) e).

Definition int_of_float (x : float) : Z :=
  if decide (0 ≤ exponent x) then mantissa x * 2 ^ exponent x
  else mantissa x `quot` 2 ^ (- exponent x).

Definition closed_issues (db : DB) (self : Milestone.t) : Z :=
  qs_count (filter (λ i, Issue.closed i = true) (Milestone_issues db self)).

Definition total_issues (db : DB) (self : Milestone.t) : Z :=
  qs_count (Milestone_issues db self).

Definition progress (db : DB) (self : Milestone.t) : result Z :=
  let closed := closed_issues db self in
  let total := total_issues db self in
  if decide (total ≠ 0) then int_of_float <$> true_divide (100 * closed) total
  else Ok 0.

(** ** Issue: the project-scoped id *)

Definition next_id (db : DB) (project : Project.t) : Z :=
  match qs_last Issue.primarykey (Project_issues db project) with
  | Some last_issue => Issue.id last_issue + 1
  | None => 1
  end.

(** Modelled from the spec: the view that creates issues is not among the
    sources.  The spec has the id of a new issue "assigned by taking the
    previous issue's id + 1", which is [Issue.next_id]; the new row takes its
    primary key from the sequence and [opened_at] from the clock
    ([auto_now_add]), the other columns their defaults. *)
Definition create_issue (now : datetime) (db : DB) (project : Project.t)
    (title : string) (author : Z) : DB :=
  let issue :=
    Issue.mk (seq_issue db) (Project.id project) (next_id db project) title
             author now None false None None in
  mkDB (tracker_label db) (tracker_milestone db) (tracker_issue db ++ [issue])
       (tracker_issue_labels db) (tracker_readstate db) (tracker_event db)
       (seq_issue db + 1) (seq_readstate db) (seq_event db).

(** ** Issue: events *)

(** [Event(issue=..., author=..., code=..., ...).save()]: the INSERT of a new
    event, with its key from the sequence and its date from the clock. *)
Definition Event_create (now : datetime) (db : DB) (issue author code : Z)
    (args : gmap string json) (additionnal_section : string) : DB :=
  let event :=
    Event.mk (seq_event db) issue now author code args additionnal_section in
  mkDB (tracker_label db) (tracker_milestone db) (tracker_issue db)
       (tracker_issue_labels db) (tracker_readstate db)
       (tracker_event db ++ [event])
       (seq_issue db) (seq_readstate db) (seq_event db + 1).

Definition getdescevent (db : DB) (self : Issue.t) : option Event.t :=
  let desc := filter (λ e, Event.code e = Event.DESCRIBE) (Issue_events db self) in
  if qs_exists desc then qs_first Event.id desc else None.

Definition getdesc (db : DB) (self : Issue.t) : option string :=
  match getdescevent db self with
  | Some desc => Some (Event.additionnal_section desc)
  | None => None
  end.

Definition setdesc (now : datetime) (db : DB) (self : Issue.t) (value : string)
  : DB :=
  match getdescevent db self with
  | Some desc =>
      set_events
        (save_row Event.id (Event.with_additionnal_section value desc)) db
  | None =>
      Event_create now db (Issue.primarykey self) (Issue.author self)
                   Event.DESCRIBE ∅ value
  end.

Definition deldesc (db : DB) (self : Issue.t) : DB :=
  match getdescevent db self with
  | Some desc => set_events (delete_row Event.id desc) db
  | None => db
  end.

(** ** Issue: labels and milestone *)

(** [self.save()] on an issue. *)
Definition Issue_save (commit : bool) (self : Issue.t) (db : DB) : DB :=
  if commit then set_issues (save_row Issue.primarykey self) db else db.

(** [self.labels.add(label)] inserts the pair unless it is already there;
    [self.labels.remove(label)] deletes it. *)
Definition labels_add (issue label : Z) (rows : list (Z * Z)) : list (Z * Z) :=
  if decide ((issue, label) ∈ rows) then rows else rows ++ [(issue, label)].

Definition labels_remove (issue label : Z) (rows : list (Z * Z)) : list (Z * Z) :=
  filter (λ r, r ≠ (issue, label)) rows.

Definition add_label (now : datetime) (db : DB) (self : Issue.t) (author : Z)
    (label : Label.t) (commit : bool) : DB :=
  if qs_exists (filter (λ l, Label.id l = Label.id label) (Issue_labels db self))
  then db
  else
    let db := set_issue_labels
                (labels_add (Issue.primarykey self) (Label.id label)) db in
    let db := Issue_save commit self db in
    Event_create now db (Issue.primarykey self) author Event.ADD_LABEL
                 {[ "label" := JInt (Label.id label) ]} "".

Definition remove_label (now : datetime) (db : DB) (self : Issue.t) (author : Z)
    (label : Label.t) (commit : bool) : DB :=
  let db := set_issue_labels
              (labels_remove (Issue.primarykey self) (Label.id label)) db in
  let db := Issue_save commit self db in
  Event_create now db (Issue.primarykey self) author Event.DEL_LABEL
               {[ "label" := JInt (Label.id label) ]} "".

(** The milestone mutators also assign [self.milestone]; they return the
    database together with the issue object as the method leaves it. *)
Definition add_milestone (now : datetime) (db : DB) (self : Issue.t) (author : Z)
    (milestone : Milestone.t) (commit : bool) : result (DB * Issue.t) :=
  let self' := Issue.with_milestone (Some (Milestone.id milestone)) self in
  match Issue.milestone self with
  | Some current =>
      old ← Milestone_objects_get db current;
      if decide (Milestone.id old = Milestone.id milestone) then Ok (db, self)
      else
        let db := Event_create now db (Issue.primarykey self) author
                    Event.CHANGE_MILESTONE
                    {[ "old_milestone" := JStr (Milestone.name old);
                       "new_milestone" := JStr (Milestone.name milestone) ]} "" in
        Ok (Issue_save commit self' db, self')
  | None =>
      let db := Event_create now db (Issue.primarykey self) author
                  Event.SET_MILESTONE
                  {[ "milestone" := JStr (Milestone.name milestone) ]} "" in
      Ok (Issue_save commit self' db, self')
  end.

Definition remove_milestone (now : datetime) (db : DB) (self : Issue.t)
    (author : Z) (milestone : Milestone.t) (commit : bool) : DB * Issue.t :=
  let self' := Issue.with_milestone None self in
  let db := Issue_save commit self' db in
  (Event_create now db (Issue.primarykey self) author Event.UNSET_MILESTONE
                {[ "milestone" := JStr (Milestone.name milestone) ]} "",
   self').

(** ** Event: who may edit *)

(** What [editable_by] reads from the request: the user, the permission
    check of [accounts.models.User] (on a permission name and a project,
    given by its id), and the settings of the current site. *)
Record Request := mkRequest {
  user : User;
  has_perm : string → Z → bool;
  settings : Settings.t;
}.

Definition editable_by (now : datetime) (db : DB) (self : Event.t)
    (request : Request) : result bool :=
  if negb (Event.editable self) then Ok false
  else
    issue ← Issue_objects_get db (Event.issue self);
    let project := Issue.project issue in
    if has_perm request "modify_comment" project
       && bool_decide (Event.code self = Event.COMMENT) then Ok true
    else if has_perm request "modify_issue" project
            && bool_decide (Event.code self = Event.DESCRIBE) then Ok true
    else if negb (has_perm request "modify_own_comment" project)
            || negb (user_is (Event.author self) (user request)) then Ok false
    else
      let policy := Settings.edit_policy (settings request) in
      if decide (policy = Settings.EDIT_TIMEOUT) then
        delta ← timedelta_minutes (Settings.edit_policy_timeout (settings request));
        limit ← datetime_add (Event.date self) delta;
        Ok (bool_decide (now < limit))
      else if decide (policy = Settings.EDIT_NOMORECOMMENT) then
        Ok (negb (qs_exists
                    (filter (λ e, Event.code e = Event.COMMENT
                                  ∧ Event.date self < Event.date e)
                            (Issue_events db issue))))
      else Ok true.

(** ** The write operations as one transition system *)

Inductive op :=
  | SetDesc (self : Issue.t) (value : string)
  | DelDesc (self : Issue.t)
  | AddLabel (self : Issue.t) (author : Z) (label : Label.t) (commit : bool)
  | RemoveLabel (self : Issue.t) (author : Z) (label : Label.t) (commit : bool)
  | AddMilestone (self : Issue.t) (author : Z) (milestone : Milestone.t)
                 (commit : bool)
  | RemoveMilestone (self : Issue.t) (author : Z) (milestone : Milestone.t)
                    (commit : bool)
  | MarkAsRead (self : Issue.t) (user : User).

Definition run (now now_add : datetime) (o : op) (db : DB) : result DB :=
  match o with
  | SetDesc self value => Ok (setdesc now db self value)
  | DelDesc self => Ok (deldesc db self)
  | AddLabel self author label commit =>
      Ok (add_label now db self author label commit)
  | RemoveLabel self author label commit =>
      Ok (remove_label now db self author label commit)
  | AddMilestone self author milestone commit =>
      fst <$> add_milestone now db self author milestone commit
  | RemoveMilestone self author milestone commit =>
      Ok (fst (remove_milestone now db self author milestone commit))
  | MarkAsRead self user => snd <$> mark_as_read now now_add db self user
  end.

(** Results can be compared. *)
#[global] Instance exn_eq_dec : EqDecision exn.
Proof. solve_decision. Defined.

#[global] Instance result_eq_dec {A : Type} `{EqDecision A} :
  EqDecision (result A).
Proof. solve_decision. Defined.

(** ** Issue: comments and due date *)

Definition Issue_comments (db : DB) (self : Issue.t) : list Event.t :=
  filter (λ e, Event.code e = Event.COMMENT) (Issue_events db self).

(** [overdue] reads the clock ([now]); a [datetime] is always truthy, so the
    test [if self.due_date] is the test that the column is not NULL. *)
Definition overdue (now : datetime) (self : Issue.t) : bool :=
  match Issue.due_date self with
  | Some due_date => bool_decide (due_date < now)
  | None => false
  end.

(** ** Event: the icon *)

Definition glyphicon (self : Event.t) : string :=
  let code := Event.code self in
  if decide (code = Event.COMMENT) then "comment"
  else if decide (code = Event.DESCRIBE) then "edit"
  else if decide (code = Event.CLOSE) then "ban-circle"
  else if decide (code = Event.REOPEN) then "refresh"
  else if decide (code = Event.RENAME) then "transfer"
  else if decide (code = Event.ADD_LABEL ∨ code = Event.DEL_LABEL) then "tag"
  else if decide (code = Event.SET_MILESTONE ∨ code = Event.CHANGE_MILESTONE
                  ∨ code = Event.UNSET_MILESTONE) then "road"
  else if decide (code = Event.REFERENCE) then "transfer"
  else if decide (code = Event.ASSIGN ∨ code = Event.UNASSIGN) then "user"
  else if decide (code = Event.SET_DUE_DATE ∨ code = Event.CHANGE_DUE_DATE
                  ∨ code = Event.UNSET_DUE_DATE) then "calendar"
  else "cog".

(** ** Constraints and reachable states *)

(** [unique_together] and primary keys: no two rows of the table agree on
    the key. *)
Definition unique_on {A K : Type} (key : A → K) (table : list A) : Prop :=
  NoDup (key <$> table).

Definition readstate_unique_together (db : DB) : Prop :=
  unique_on (λ r, (ReadState.issue r, ReadState.user r)) (tracker_readstate db).

Definition issue_unique_together (db : DB) : Prop :=
  unique_on (λ i, (Issue.project i, Issue.id i)) (tracker_issue db).

(** Primary keys of read states and events: unique and below the sequence
    they are drawn from. *)
Definition readstate_keys_ok (db : DB) : Prop :=
  unique_on ReadState.id (tracker_readstate db)
  ∧ (∀ r, r ∈ tracker_readstate db → ReadState.id r < seq_readstate db)
  ∧ readstate_unique_together db.

Definition event_keys_ok (db : DB) : Prop :=
  unique_on Event.id (tracker_event db)
  ∧ (∀ e, e ∈ tracker_event db → Event.id e < seq_event db).

(** No issue has more than one DESCRIBE event. *)
Definition single_description (db : DB) : Prop :=
  ∀ issue : Z,
    (length (filter (λ e, Event.issue e = issue ∧ Event.code e = Event.DESCRIBE)
                    (tracker_event db)) ≤ 1)%nat.

(** The ids of the issues of each project, in the order of the table, are
    1, 2, ... without a gap. *)
Definition gapless_ids (db : DB) : Prop :=
  ∀ project : Z,
    Issue.id <$> filter (λ i, Issue.project i = project) (tracker_issue db)
    = seqZ 1 (Z.of_nat (length (filter (λ i, Issue.project i = project)
                                       (tracker_issue db)))).

(** What the writes maintain on the issue table: primary keys are unique
    and stay below the sequence, and within a project ids grow with primary
    keys. *)
Definition ids_follow_keys (db : DB) : Prop :=
  unique_on Issue.primarykey (tracker_issue db)
  ∧ (∀ i, i ∈ tracker_issue db → Issue.primarykey i < seq_issue db)
  ∧ (∀ i j, i ∈ tracker_issue db → j ∈ tracker_issue db →
            Issue.project i = Issue.project j →
            Issue.primarykey i ≤ Issue.primarykey j → Issue.id i ≤ Issue.id j).

(** The issue a write operation is called on. *)
Definition op_self (o : op) : Issue.t :=
  match o with
  | SetDesc self _ | DelDesc self | AddLabel self _ _ _ | RemoveLabel self _ _ _
  | AddMilestone self _ _ _ | RemoveMilestone self _ _ _ | MarkAsRead self _ =>
      self
  end.

(** The states reached from the empty database by creating issues and by
    calling the write operations on stored issues. *)
Inductive reachable : DB → Prop :=
  | reachable_empty : reachable empty_db
  | reachable_create now db project title author :
      reachable db → reachable (create_issue now db project title author)
  | reachable_run now now_add o db db' :
      reachable db → op_self o ∈ tracker_issue db →
      run now now_add o db = Ok db' → reachable db'.

(** ** Sample data *)

Definition project_pony : Project.t := Project.mk 1 "Pony" "pony" "" 1 false.
Definition project_tack : Project.t := Project.mk 2 "Tack" "tack" "" 1 false.

Definition issue_crash : Issue.t :=
  Issue.mk 1 1 1 "crash" 5 100 None false None None.

Definition event_describe : Event.t :=
  Event.mk 1 1 100 5 Event.DESCRIBE ∅ "it crashes".

Definition event_comment : Event.t :=
  Event.mk 2 1 200 6 Event.COMMENT ∅ "same here".

Definition label_bug : Label.t := Label.mk 1 1 "bug" false "#ff0000" true.
Definition label_old : Label.t := Label.mk 2 1 "old" true "#000000" true.
Definition milestone_v1 : Milestone.t := Milestone.mk 7 1 "v1" None false false.

Definition request_author : Request :=
  mkRequest (StoredUser 6)
            (λ perm _, bool_decide (perm = "modify_own_comment"))
            (Settings.mk 25 Settings.EDIT_TIMEOUT 30).

Definition request_moderator : Request :=
  mkRequest AnonymousUser (λ perm _, bool_decide (perm = "modify_comment"))
            (Settings.mk 25 Settings.EDIT_TIMEOUT 30).

Definition request_until_next : Request :=
  mkRequest (StoredUser 5)
            (λ perm _, bool_decide (perm = "modify_own_comment"))
            (Settings.mk 25 Settings.EDIT_NOMORECOMMENT 30).

Definition db_two_events : DB :=
  mkDB [label_bug; label_old] [milestone_v1]
       [issue_crash]
       [(1, 2)]
       [ReadState.mk 1 1 5 150]
       [event_describe;
        event_comment;
        Event.mk 3 1 300 5 Event.CLOSE ∅ ""]
       2 2 4.

Definition db_milestone : DB :=
  mkDB [] [milestone_v1]
       [Issue.mk 1 1 1 "a" 5 100 None true (Some 7) None;
        Issue.mk 2 1 2 "b" 5 110 None true (Some 7) None;
        Issue.mk 3 1 3 "c" 5 120 None false (Some 7) None]
       [] [] [] 4 1 1.

Definition db_two_projects : DB :=
  create_issue 20 (create_issue 10 empty_db project_pony "a" 5)
               project_tack "b" 6.

(** * Properties *)

(** ** Querysets *)

Section queryset_facts.
Context {A : Type} (pk : A → Z).
Implicit Types (qs : list A) (x : A).

Lemma qs_exists_length qs : qs_exists qs = bool_decide (0 < qs_count qs).
Proof.
  unfold qs_count. destruct qs; simpl length.
  - reflexivity.
  - symmetry. apply bool_decide_eq_true. lia.
Qed.

Lemma filter_none (P : A → Prop) `{∀ x, Decision (P x)} qs :
  (∀ x, x ∈ qs → ¬ P x) → filter P qs = [].
Proof.
  induction qs as [|y qs IH]; intros Hnone; [reflexivity|].
  rewrite filter_cons_False by (apply Hnone; left).
  apply IH. intros x Hx. apply Hnone. by right.
Qed.

Lemma qs_get_singleton qs x : qs = [x] → qs_get qs = Ok x.
Proof. intros ->. reflexivity. Qed.

Lemma filter_unique_on {K : Type} `{EqDecision K} (key : A → K) qs x :
  unique_on key qs → x ∈ qs → filter (λ y, key y = key x) qs = [x].
Proof.
  unfold unique_on. induction qs as [|y qs IH]; intros Hnd Hin.
  - inversion Hin.
  - rewrite fmap_cons in Hnd. apply NoDup_cons in Hnd as [Hy Hnd].
    rewrite filter_cons. apply elem_of_cons in Hin as [->|Hin].
    + rewrite decide_True by reflexivity. f_equal.
      apply filter_none. intros z Hz Heq.
      apply Hy. rewrite <- Heq. apply list_elem_of_fmap. eauto.
    + rewrite decide_False; [auto|].
      intros Heq. apply Hy. rewrite Heq. apply list_elem_of_fmap. eauto.
Qed.

Lemma qs_first_None qs : qs_first pk qs = None ↔ qs = [].
Proof.
  destruct qs as [|x qs]; simpl; [tauto|].
  split; [|discriminate].
  destruct (qs_first pk qs); [case_decide|]; discriminate.
Qed.

Lemma qs_first_Some qs x :
  qs_first pk qs = Some x → x ∈ qs ∧ ∀ y, y ∈ qs → pk x ≤ pk y.
Proof.
  revert x. induction qs as [|z qs IH]; intros x; simpl; [discriminate|].
  destruct (qs_first pk qs) as [m|] eqn:Hm.
  - destruct (IH m eq_refl) as [Hin Hmin].
    case_decide; intros [= <-]; (split; [first [by left | by right]|]);
      intros y [->|Hy]%elem_of_cons; try lia; specialize (Hmin y Hy); lia.
  - apply qs_first_None in Hm as ->. intros [= <-].
    split; [by left|]. intros y ->%list_elem_of_singleton. lia.
Qed.

Lemma qs_last_None qs : qs_last pk qs = None ↔ qs = [].
Proof.
  destruct qs as [|x qs]; simpl; [tauto|].
  split; [|discriminate].
  destruct (qs_last pk qs); [case_decide|]; discriminate.
Qed.

Lemma qs_last_Some qs x :
  qs_last pk qs = Some x → x ∈ qs ∧ ∀ y, y ∈ qs → pk y ≤ pk x.
Proof.
  revert x. induction qs as [|z qs IH]; intros x; simpl; [discriminate|].
  destruct (qs_last pk qs) as [m|] eqn:Hm.
  - destruct (IH m eq_refl) as [Hin Hmax].
    case_decide; intros [= <-]; (split; [first [by left | by right]|]);
      intros y [->|Hy]%elem_of_cons; try lia; specialize (Hmax y Hy); lia.
  - apply qs_last_None in Hm as ->. intros [= <-].
    split; [by left|]. intros y ->%list_elem_of_singleton. lia.
Qed.
End queryset_facts.

Lemma unique_on_inj {A K : Type} (key : A → K) (table : list A) (x y : A) :
  unique_on key table → x ∈ table → y ∈ table → key x = key y → x = y.
Proof.
  unfold unique_on. intros Huniq Hx Hy Hkey.
  apply list_elem_of_lookup in Hx as [n Hn], Hy as [m Hm].
  assert (n = m) as ->; [|congruence].
  eapply NoDup_lookup; [exact Huniq| |].
  - rewrite list_lookup_fmap, Hn. reflexivity.
  - rewrite list_lookup_fmap, Hm. simpl. by rewrite Hkey.
Qed.

(** ** Read states *)

Lemma readstates_get_found db self u readstate :
  readstate_unique_together db →
  readstate ∈ tracker_readstate db →
  ReadState.issue readstate = Issue.primarykey self →
  ReadState.user readstate = u →
  readstates_get db self (StoredUser u) = Ok readstate.
Proof.
  intros Huniq Hin Hissue Huser. unfold readstates_get, Issue_readstates.
  apply qs_get_singleton. rewrite list_filter_filter.
  rewrite <- (filter_unique_on
                (λ r, (ReadState.issue r, ReadState.user r)) _ readstate Huniq Hin).
  apply list_filter_iff. intros r. simpl. rewrite Hissue, Huser.
  split; [intros [-> ->]; reflexivity|intros [= -> ->]; auto].
Qed.

Lemma readstates_get_missing db self u :
  (∀ r, r ∈ tracker_readstate db →
        ¬ (ReadState.issue r = Issue.primarykey self ∧ ReadState.user r = u)) →
  readstates_get db self (StoredUser u) = Raise ObjectDoesNotExist.
Proof.
  intros Hnone. unfold readstates_get, Issue_readstates.
  rewrite list_filter_filter.
  replace (filter _ (tracker_readstate db)) with (@nil ReadState.t); [reflexivity|].
  symmetry. apply filter_none.
  intros r Hr [? ?]. apply (Hnone r Hr). auto.
Qed.

(** C1.  For an authenticated user with a read state on the issue,
    [get_unread_event_nb] is the number of the issue's events dated strictly
    after the read state's [lastread], and [have_unread_message] holds
    exactly when that number is positive; for an authenticated user with no
    read state on the issue, [get_unread_event_nb] is the number of all the
    issue's events and [have_unread_message] holds. *)
Theorem unread_tracking (db : DB) (self : Issue.t) (u : Z) :
  readstate_unique_together db →
  (∀ readstate,
     readstate ∈ tracker_readstate db →
     ReadState.issue readstate = Issue.primarykey self →
     ReadState.user readstate = u →
     let unread :=
       filter (λ e, Event.issue e = Issue.primarykey self
                    ∧ ReadState.lastread readstate < Event.date e)
              (tracker_event db) in
     get_unread_event_nb db self (StoredUser u) = Ok (Z.of_nat (length unread))
     ∧ have_unread_message db self (StoredUser u)
       = Ok (bool_decide (0 < Z.of_nat (length unread))))
  ∧ ((∀ r, r ∈ tracker_readstate db →
           ¬ (ReadState.issue r = Issue.primarykey self ∧ ReadState.user r = u)) →
     get_unread_event_nb db self (StoredUser u)
     = Ok (Z.of_nat (length (filter (λ e, Event.issue e = Issue.primarykey self)
                                    (tracker_event db))))
     ∧ have_unread_message db self (StoredUser u) = Ok true).
Proof.
  intros Huniq. split.
  - intros readstate Hin Hissue Huser unread.
    unfold get_unread_event_nb, have_unread_message. simpl negb. cbv iota.
    rewrite (readstates_get_found db self u readstate) by assumption.
    unfold Issue_events. rewrite list_filter_filter, qs_exists_length.
    unfold qs_count.
    assert (filter (λ e, ReadState.lastread readstate < Event.date e
                         ∧ Event.issue e = Issue.primarykey self)
                   (tracker_event db) = unread) as ->; [|done].
    apply list_filter_iff. tauto.
  - intros Hnone. unfold get_unread_event_nb, have_unread_message.
    simpl negb. cbv iota. rewrite readstates_get_missing by assumption. done.
Qed.

Lemma unread_tracking_witness :
  get_unread_event_nb db_two_events
    (issue_crash) (StoredUser 5) = Ok 2
  ∧ have_unread_message db_two_events
      (issue_crash) (StoredUser 5) = Ok true.
Proof.
  assert (readstate_unique_together db_two_events) as Huniq.
  { unfold readstate_unique_together, unique_on. simpl.
    apply NoDup_singleton. }
  destruct (unread_tracking db_two_events
              (issue_crash) 5 Huniq)
    as [Hfound _].
  apply (Hfound (ReadState.mk 1 1 5 150)); [by left|reflexivity|reflexivity].
Defined.

(** C10.  For an unauthenticated user the read-state interface does
    nothing: the three counters answer 0, 0 and false, and [mark_as_read]
    returns the current time and leaves the database, hence every read
    state, as it was. *)
Theorem unauthenticated_noop (db : DB) (project : Project.t) (self : Issue.t)
    (now now_add : datetime) (user : User) :
  is_authenticated user = false →
  get_unread_issues_nb db project user = Ok 0
  ∧ get_unread_event_nb db self user = Ok 0
  ∧ have_unread_message db self user = Ok false
  ∧ mark_as_read now now_add db self user = Ok (now, db).
Proof.
  intros Hanon.
  unfold get_unread_issues_nb, get_unread_event_nb, have_unread_message,
    mark_as_read.
  rewrite Hanon. done.
Qed.

Lemma unauthenticated_noop_witness :
  get_unread_issues_nb db_two_events project_pony
    AnonymousUser = Ok 0
  ∧ get_unread_event_nb db_two_events
      (issue_crash) AnonymousUser = Ok 0
  ∧ have_unread_message db_two_events
      (issue_crash) AnonymousUser = Ok false
  ∧ mark_as_read 400 401 db_two_events
      (issue_crash) AnonymousUser
    = Ok (400, db_two_events).
Proof. apply unauthenticated_noop. reflexivity. Defined.

(** ** The project-scoped id *)

Lemma next_id_cases (db : DB) (project : Project.t) :
  ((∀ i, i ∈ tracker_issue db → Issue.project i ≠ Project.id project) →
   next_id db project = 1)
  ∧ (∀ i, i ∈ tracker_issue db → Issue.project i = Project.id project →
     ∃ last_issue,
       last_issue ∈ tracker_issue db
       ∧ Issue.project last_issue = Project.id project
       ∧ (∀ j, j ∈ tracker_issue db → Issue.project j = Project.id project →
               Issue.primarykey j ≤ Issue.primarykey last_issue)
       ∧ next_id db project = Issue.id last_issue + 1).
Proof.
  unfold next_id, Project_issues. split.
  - intros Hnone. rewrite filter_none by assumption. reflexivity.
  - intros i Hi Hp.
    destruct (qs_last _ _) as [last_issue|] eqn:Hlast.
    + apply qs_last_Some in Hlast as [Hin Hmax].
      apply list_elem_of_filter in Hin as [Hlp Hin].
      exists last_issue. repeat split; try assumption.
      intros j Hj Hjp. apply Hmax, list_elem_of_filter. auto.
    + apply qs_last_None in Hlast.
      assert (i ∈ filter (λ i, Issue.project i = Project.id project)
                         (tracker_issue db)) as Hin
        by (apply list_elem_of_filter; auto).
      rewrite Hlast in Hin. inversion Hin.
Qed.


(** C2.  [Issue.next_id] is 1 for a project without issues; otherwise it is
    one more than the id of the project's last issue, the one with the
    greatest primary key. *)
Theorem next_id_previous_plus_one (db : DB) (project : Project.t) :
  ((∀ i, i ∈ tracker_issue db → Issue.project i ≠ Project.id project) →
   next_id db project = 1)
  ∧ (∀ i, i ∈ tracker_issue db → Issue.project i = Project.id project →
     ∃ last_issue,
       last_issue ∈ tracker_issue db
       ∧ Issue.project last_issue = Project.id project
       ∧ (∀ j, j ∈ tracker_issue db → Issue.project j = Project.id project →
               Issue.primarykey j ≤ Issue.primarykey last_issue)
       ∧ next_id db project = Issue.id last_issue + 1).
Proof. exact (next_id_cases db project). Qed.

Lemma next_id_above (db : DB) (project : Project.t) (i : Issue.t) :
  ids_follow_keys db →
  i ∈ tracker_issue db → Issue.project i = Project.id project →
  Issue.id i < next_id db project.
Proof.
  intros (_ & _ & Hmono) Hi Hp.
  destruct (next_id_cases db project) as [_ Hsome].
  destruct (Hsome i Hi Hp) as (last_issue & Hin & Hlp & Hmax & ->).
  assert (Issue.id i ≤ Issue.id last_issue); [|lia].
  apply Hmono; auto; congruence.
Qed.

Lemma create_issue_invariant now db project title author :
  ids_follow_keys db ∧ issue_unique_together db →
  ids_follow_keys (create_issue now db project title author)
  ∧ issue_unique_together (create_issue now db project title author).
Proof.
  intros [Hinv Huniq]. pose proof Hinv as (Hkeys & Hseq & Hmono).
  pose proof (next_id_above db project) as Habove.
  unfold ids_follow_keys, issue_unique_together, unique_on, create_issue.
  simpl. split; [split; [|split]|].
  - rewrite fmap_app. apply NoDup_app. split; [assumption|]. split.
    + intros key Hkey ->%list_elem_of_singleton.
      apply list_elem_of_fmap in Hkey as (i & Hpk & Hi). simpl in Hpk.
      specialize (Hseq i Hi). lia.
    + apply NoDup_singleton.
  - intros i [Hi| ->%list_elem_of_singleton]%elem_of_app; simpl.
    + specialize (Hseq i Hi). lia.
    + lia.
  - intros i j [Hi| ->%list_elem_of_singleton]%elem_of_app
               [Hj| ->%list_elem_of_singleton]%elem_of_app; simpl; intros Hp Hk.
    + auto.
    + specialize (Habove i Hinv Hi Hp). lia.
    + specialize (Hseq j Hj). lia.
    + lia.
  - rewrite fmap_app. apply NoDup_app. split; [assumption|]. split.
    + intros key Hkey ->%list_elem_of_singleton.
      apply list_elem_of_fmap in Hkey as (i & [= Hp Hid] & Hi).
      specialize (Habove i Hinv Hi (eq_sym Hp)). lia.
    + apply NoDup_singleton.
Qed.

(** The columns of an issue that the invariant speaks of. *)
Lemma save_issue_keys (self self' : Issue.t) (table : list Issue.t) :
  unique_on Issue.primarykey table → self ∈ table →
  Issue.primarykey self' = Issue.primarykey self →
  Issue.project self' = Issue.project self →
  Issue.id self' = Issue.id self →
  (λ i, (Issue.primarykey i, Issue.project i, Issue.id i))
    <$> save_row Issue.primarykey self' table
  = (λ i, (Issue.primarykey i, Issue.project i, Issue.id i)) <$> table.
Proof.
  intros Huniq Hin Hpk Hproject Hid. unfold save_row.
  destruct (filter _ table) as [|x xs] eqn:Hfilter.
  { exfalso. assert (self ∈ @nil Issue.t) as Hnil; [|inversion Hnil].
    rewrite <- Hfilter. by apply list_elem_of_filter. }
  simpl qs_exists. cbv iota. rewrite <- list_fmap_compose.
  apply list_fmap_ext. intros n r Hr. simpl. case_decide as Hsame; [|done].
  assert (r = self) as ->.
  { apply (unique_on_inj Issue.primarykey table); [assumption| |assumption|lia].
    apply list_elem_of_lookup. eauto. }
  by rewrite Hpk, Hproject, Hid.
Qed.

Lemma Issue_save_keys (commit : bool) (self self' : Issue.t) (db : DB) :
  unique_on Issue.primarykey (tracker_issue db) → self ∈ tracker_issue db →
  Issue.primarykey self' = Issue.primarykey self →
  Issue.project self' = Issue.project self →
  Issue.id self' = Issue.id self →
  seq_issue (Issue_save commit self' db) = seq_issue db
  ∧ (λ i, (Issue.primarykey i, Issue.project i, Issue.id i))
      <$> tracker_issue (Issue_save commit self' db)
    = (λ i, (Issue.primarykey i, Issue.project i, Issue.id i))
      <$> tracker_issue db.
Proof.
  intros. destruct commit; simpl; [|done].
  split; [done|]. by apply (save_issue_keys self).
Qed.

(** The goal speaks of a database obtained by [Issue_save]: hand it to
    [Issue_save_keys], whose premises hold by assumption or computation. *)
Local Ltac save_keeps_keys self :=
  match goal with
  | |- context [Issue_save ?commit ?self' ?db] =>
      destruct (Issue_save_keys commit self self' db) as [-> ->];
      [assumption|assumption|reflexivity|reflexivity|reflexivity|done]
  end.

Lemma run_issue_keys now now_add o db db' :
  unique_on Issue.primarykey (tracker_issue db) →
  op_self o ∈ tracker_issue db →
  run now now_add o db = Ok db' →
  seq_issue db' = seq_issue db
  ∧ (λ i, (Issue.primarykey i, Issue.project i, Issue.id i))
      <$> tracker_issue db'
    = (λ i, (Issue.primarykey i, Issue.project i, Issue.id i))
      <$> tracker_issue db.
Proof.
  intros Huniq Hself Hrun.
  destruct o as [self value|self|self author label commit
                |self author label commit|self author milestone commit
                |self author milestone commit|self usr];
    simpl in Hself, Hrun.
  - injection Hrun as <-. unfold setdesc. by destruct (getdescevent db self).
  - injection Hrun as <-. unfold deldesc. by destruct (getdescevent db self).
  - injection Hrun as <-. unfold add_label. destruct (qs_exists _); [done|].
    simpl. save_keeps_keys self.
  - injection Hrun as <-. unfold remove_label. simpl. save_keeps_keys self.
  - unfold add_milestone in Hrun. destruct (Issue.milestone self) as [current|].
    + destruct (Milestone_objects_get db current) as [old|]; simpl in Hrun;
        [|discriminate].
      case_decide; simpl in Hrun; injection Hrun as <-; [done|].
      save_keeps_keys self.
    + simpl in Hrun. injection Hrun as <-. save_keeps_keys self.
  - injection Hrun as <-. unfold remove_milestone. simpl. save_keeps_keys self.
  - unfold mark_as_read in Hrun. destruct usr as [|u]; simpl in Hrun.
    + by injection Hrun as <-.
    + destruct (qs_get _) as [readstate|[]]; simpl in Hrun;
        try discriminate; by injection Hrun as <-.
Qed.

Lemma issue_keys_invariant db db' :
  seq_issue db' = seq_issue db →
  (λ i, (Issue.primarykey i, Issue.project i, Issue.id i)) <$> tracker_issue db'
  = (λ i, (Issue.primarykey i, Issue.project i, Issue.id i)) <$> tracker_issue db →
  ids_follow_keys db ∧ issue_unique_together db →
  ids_follow_keys db' ∧ issue_unique_together db'.
Proof.
  intros Hseq Hkeys [(Hpk & Hbelow & Hmono) Huniq].
  assert (∀ i, i ∈ tracker_issue db' →
               ∃ i0, i0 ∈ tracker_issue db
                     ∧ Issue.primarykey i = Issue.primarykey i0
                     ∧ Issue.project i = Issue.project i0
                     ∧ Issue.id i = Issue.id i0) as Hback.
  { intros i Hi.
    assert ((Issue.primarykey i, Issue.project i, Issue.id i)
            ∈ (λ i, (Issue.primarykey i, Issue.project i, Issue.id i))
              <$> tracker_issue db') as Hin
      by (apply list_elem_of_fmap; eauto).
    rewrite Hkeys in Hin.
    apply list_elem_of_fmap in Hin as (i0 & [= ? ? ?] & Hi0). eauto. }
  unfold ids_follow_keys, issue_unique_together, unique_on in *.
  split; [split; [|split]|].
  - change Issue.primarykey
      with ((λ k : Z * Z * Z, k.1.1)
            ∘ (λ i, (Issue.primarykey i, Issue.project i, Issue.id i))).
    rewrite list_fmap_compose, Hkeys, <- list_fmap_compose. exact Hpk.
  - intros i (i0 & Hi0 & -> & _)%Hback. rewrite Hseq. auto.
  - intros i j (i0 & Hi0 & -> & -> & ->)%Hback (j0 & Hj0 & -> & -> & ->)%Hback.
    auto.
  - change (λ i, (Issue.project i, Issue.id i))
      with ((λ k : Z * Z * Z, (k.1.2, k.2))
            ∘ (λ i, (Issue.primarykey i, Issue.project i, Issue.id i))).
    rewrite list_fmap_compose, Hkeys, <- list_fmap_compose. exact Huniq.
Qed.

Lemma reachable_invariant db :
  reachable db → ids_follow_keys db ∧ issue_unique_together db.
Proof.
  induction 1 as [|now db project title author _ IH
                  |now now_add o db db' _ IH Hself Hrun].
  - split; [split; [|split]|].
    + apply NoDup_nil_2.
    + intros i Hi. inversion Hi.
    + intros i j Hi. inversion Hi.
    + apply NoDup_nil_2.
  - by apply create_issue_invariant.
  - destruct (run_issue_keys now now_add o db db') as [Hseq Hkeys];
      [apply IH|assumption|assumption|].
    by apply (issue_keys_invariant db db').
Qed.

(** C7.  In every state reached by creating issues (and by the write
    operations on stored issues) no two issues of a project have the same
    id, while issues of different projects can: after one creation in each
    of two projects both issues have the id 1. *)
Theorem issue_id_unique_within_project :
  (∀ db, reachable db →
     issue_unique_together db
     ∧ ∀ i j, i ∈ tracker_issue db → j ∈ tracker_issue db →
              Issue.project i = Issue.project j → Issue.id i = Issue.id j →
              i = j)
  ∧ (∃ db i j, reachable db
       ∧ i ∈ tracker_issue db ∧ j ∈ tracker_issue db
       ∧ Issue.project i ≠ Issue.project j ∧ Issue.id i = Issue.id j).
Proof.
  split.
  - intros db Hreach. apply reachable_invariant in Hreach as [_ Huniq].
    split; [assumption|]. intros i j Hi Hj Hp Hid.
    unfold issue_unique_together, unique_on in Huniq.
    apply list_elem_of_lookup in Hi as [n Hn], Hj as [m Hm].
    assert (n = m) as ->.
    { eapply NoDup_lookup; [exact Huniq| |].
      - rewrite list_lookup_fmap, Hn. reflexivity.
      - rewrite list_lookup_fmap, Hm. simpl. by rewrite Hp, Hid. }
    congruence.
  - exists db_two_projects.
    exists (Issue.mk 1 1 1 "a" 5 10 None false None None),
           (Issue.mk 2 2 1 "b" 6 20 None false None None).
    split; [repeat constructor|].
    split; [by left|]. split; [by right; left|]. split; [discriminate|reflexivity].
Qed.

(** ** The description event *)

Lemma Event_create_events now db issue author code args body :
  tracker_event (Event_create now db issue author code args body)
  = tracker_event db
    ++ [Event.mk (seq_event db) issue now author code args body].
Proof. reflexivity. Qed.

Lemma getdescevent_None db self :
  getdescevent db self = None
  ↔ ∀ e, e ∈ tracker_event db →
         Event.issue e = Issue.primarykey self → Event.code e ≠ Event.DESCRIBE.
Proof.
  unfold getdescevent, Issue_events.
  destruct (filter (λ e, Event.code e = _) _) as [|d desc] eqn:Hdesc; simpl.
  - split; [|done]. intros _ e He Hissue Hcode.
    assert (e ∈ @nil Event.t) as Hnil; [|inversion Hnil].
    rewrite <- Hdesc. by rewrite !list_elem_of_filter.
  - split.
    + destruct (qs_first Event.id desc); [case_decide|]; discriminate.
    + intros Hnone. exfalso.
      assert (d ∈ d :: desc) as Hd by left. rewrite <- Hdesc in Hd.
      rewrite !list_elem_of_filter in Hd.
      destruct Hd as (Hc & Hi & Hin). exact (Hnone d Hin Hi Hc).
Qed.

Lemma getdescevent_Some db self desc :
  getdescevent db self = Some desc →
  desc ∈ tracker_event db
  ∧ Event.issue desc = Issue.primarykey self
  ∧ Event.code desc = Event.DESCRIBE
  ∧ ∀ e, e ∈ tracker_event db → Event.issue e = Issue.primarykey self →
         Event.code e = Event.DESCRIBE → Event.id desc ≤ Event.id e.
Proof.
  unfold getdescevent, Issue_events.
  destruct (qs_exists _); [|discriminate].
  intros [Hin Hmin]%qs_first_Some.
  rewrite !list_elem_of_filter in Hin. destruct Hin as (? & ? & ?).
  repeat split; try assumption.
  intros e He Hissue Hcode. apply Hmin. by rewrite !list_elem_of_filter.
Qed.

Lemma getdescevent_found db self desc :
  desc ∈ tracker_event db →
  Event.issue desc = Issue.primarykey self →
  Event.code desc = Event.DESCRIBE →
  (∀ e, e ∈ tracker_event db → Event.issue e = Issue.primarykey self →
        Event.code e = Event.DESCRIBE →
        Event.id desc ≤ Event.id e ∧ (Event.id e = Event.id desc → e = desc)) →
  getdescevent db self = Some desc.
Proof.
  intros Hin Hissue Hcode Hmin.
  destruct (getdescevent db self) as [d|] eqn:Hd.
  - apply getdescevent_Some in Hd as (Hdin & Hdissue & Hdcode & Hdmin).
    f_equal. apply Hmin; auto.
    specialize (Hdmin desc Hin Hissue Hcode).
    destruct (Hmin d Hdin Hdissue Hdcode) as [? _]. lia.
  - exfalso. eapply getdescevent_None in Hd; eauto.
Qed.

(** C3.  The description is one DESCRIBE event.  Without one, reading gives
    [None] and writing appends a single DESCRIBE event holding the value;
    with one, writing replaces its body and adds no event; in both cases
    reading afterwards gives the value written. *)
Theorem description_is_one_event (now : datetime) (db : DB) (self : Issue.t)
    (value : string) :
  ((∀ e, e ∈ tracker_event db → Event.issue e = Issue.primarykey self →
         Event.code e ≠ Event.DESCRIBE) →
   getdesc db self = None
   ∧ ∃ desc,
       tracker_event (setdesc now db self value) = tracker_event db ++ [desc]
       ∧ Event.code desc = Event.DESCRIBE
       ∧ Event.additionnal_section desc = value
       ∧ filter (λ e, Event.code e = Event.DESCRIBE)
                (Issue_events (setdesc now db self value) self) = [desc]
       ∧ getdesc (setdesc now db self value) self = Some value)
  ∧ (∀ e, e ∈ tracker_event db → Event.issue e = Issue.primarykey self →
          Event.code e = Event.DESCRIBE →
     ∃ desc,
       getdescevent db self = Some desc
       ∧ tracker_event (setdesc now db self value)
         = (λ e, if decide (Event.id e = Event.id desc)
                 then Event.with_additionnal_section value desc else e)
           <$> tracker_event db
       ∧ length (tracker_event (setdesc now db self value))
         = length (tracker_event db)
       ∧ getdescevent (setdesc now db self value) self
         = Some (Event.with_additionnal_section value desc)
       ∧ getdesc (setdesc now db self value) self = Some value).
Proof.
  split.
  - intros Hnone. pose proof (proj2 (getdescevent_None db self) Hnone) as Hget.
    unfold getdesc, setdesc. rewrite Hget. split; [reflexivity|].
    eexists. split; [apply Event_create_events|].
    split; [reflexivity|]. split; [reflexivity|].
    assert (filter (λ e, Event.code e = Event.DESCRIBE)
              (Issue_events
                 (Event_create now db (Issue.primarykey self) (Issue.author self)
                    Event.DESCRIBE ∅ value) self)
            = [Event.mk (seq_event db) (Issue.primarykey self) now
                 (Issue.author self) Event.DESCRIBE ∅ value]) as Hdesc.
    { unfold Issue_events. rewrite Event_create_events, !filter_app.
      rewrite list_filter_filter, filter_none;
        [|intros x Hx [Hc Hi]; exact (Hnone x Hx Hi Hc)].
      rewrite filter_cons_True by reflexivity.
      rewrite filter_cons_True by reflexivity. reflexivity. }
    split; [exact Hdesc|].
    unfold getdescevent. rewrite Hdesc. reflexivity.
  - intros e He Hissue Hcode.
    destruct (getdescevent db self) as [desc|] eqn:Hget;
      [|exfalso; eapply getdescevent_None in Hget; eauto].
    exists desc. split; [reflexivity|].
    pose proof Hget as (Hin & Hdissue & Hdcode & Hmin)%getdescevent_Some.
    set (desc' := Event.with_additionnal_section value desc).
    assert (tracker_event (setdesc now db self value)
            = (λ e, if decide (Event.id e = Event.id desc) then desc' else e)
              <$> tracker_event db) as Hevents.
    { unfold setdesc. rewrite Hget. simpl. unfold save_row.
      destruct (filter _ (tracker_event db)) as [|x xs] eqn:Hfilter; [|reflexivity].
      exfalso. assert (desc ∈ @nil Event.t) as Hnil; [|inversion Hnil].
      rewrite <- Hfilter. by apply list_elem_of_filter. }
    split; [exact Hevents|].
    split; [by rewrite Hevents, length_fmap|].
    assert (getdescevent (setdesc now db self value) self = Some desc') as Hget'.
    { apply getdescevent_found; try assumption.
      - rewrite Hevents. apply list_elem_of_fmap. exists desc.
        by rewrite decide_True.
      - rewrite Hevents. intros x (y & -> & Hy)%list_elem_of_fmap.
        case_decide as Hid; [done|]. intros Hyissue Hycode.
        specialize (Hmin y Hy Hyissue Hycode). simpl. split; [lia|done]. }
    split; [exact Hget'|]. unfold getdesc. by rewrite Hget'.
Qed.

(** ** Labels *)

Lemma Issue_save_labels commit self db :
  tracker_label (Issue_save commit self db) = tracker_label db
  ∧ tracker_issue_labels (Issue_save commit self db) = tracker_issue_labels db
  ∧ tracker_event (Issue_save commit self db) = tracker_event db
  ∧ seq_event (Issue_save commit self db) = seq_event db.
Proof. destruct commit; done. Qed.

(** C8.  [add_label] does nothing when the label is attached; otherwise it
    attaches the label and appends one ADD_LABEL event.  [remove_label]
    appends a DEL_LABEL event whether or not the label was attached. *)
Theorem add_label_guarded_remove_label_not (now : datetime) (db : DB)
    (self : Issue.t) (author : Z) (label : Label.t) (commit : bool) :
  ((∃ l, l ∈ Issue_labels db self ∧ Label.id l = Label.id label) →
   add_label now db self author label commit = db)
  ∧ ((∀ l, l ∈ Issue_labels db self → Label.id l ≠ Label.id label) →
     (∀ l, l ∈ Issue_labels (add_label now db self author label commit) self
           ↔ l ∈ Issue_labels db self
             ∨ (l ∈ tracker_label db ∧ Label.id l = Label.id label))
     ∧ tracker_event (add_label now db self author label commit)
       = tracker_event db
         ++ [Event.mk (seq_event db) (Issue.primarykey self) now author
                      Event.ADD_LABEL {[ "label" := JInt (Label.id label) ]} ""])
  ∧ tracker_event (remove_label now db self author label commit)
    = tracker_event db
      ++ [Event.mk (seq_event db) (Issue.primarykey self) now author
                   Event.DEL_LABEL {[ "label" := JInt (Label.id label) ]} ""].
Proof.
  split; [|split].
  - intros (l & Hl & Hid). unfold add_label.
    destruct (filter _ (Issue_labels db self)) as [|x xs] eqn:Hfilter;
      [|reflexivity].
    assert (l ∈ @nil Label.t) as Hnil; [|inversion Hnil].
    rewrite <- Hfilter. by apply list_elem_of_filter.
  - intros Hnone. unfold add_label.
    rewrite filter_none by assumption. simpl qs_exists. cbv iota.
    split.
    + intros l. unfold Issue_labels. rewrite !list_elem_of_filter. simpl.
      destruct (Issue_save_labels commit self
                  (set_issue_labels
                     (labels_add (Issue.primarykey self) (Label.id label)) db))
        as (-> & -> & _). simpl. unfold labels_add.
      case_decide as Hattached.
      * split; [tauto|]. intros [?|[Hl Hid]]; [done|].
        split; [|done]. by rewrite Hid.
      * rewrite elem_of_app, list_elem_of_singleton. split.
        -- intros [[?|[= Hid]] ?]; auto.
        -- intros [[? ?]|[? Hid]]; [tauto|]. split; [|done]. right. by rewrite Hid.
    + rewrite Event_create_events.
      destruct (Issue_save_labels commit self
                  (set_issue_labels
                     (labels_add (Issue.primarykey self) (Label.id label)) db))
        as (_ & _ & -> & ->). reflexivity.
  - unfold remove_label. rewrite Event_create_events.
    destruct (Issue_save_labels commit self
                (set_issue_labels
                   (labels_remove (Issue.primarykey self) (Label.id label)) db))
      as (_ & _ & -> & ->). reflexivity.
Qed.

(** ** The event log *)

Lemma add_milestone_events now db self author milestone commit db' self' :
  add_milestone now db self author milestone commit = Ok (db', self') →
  ∃ new, tracker_event db' = tracker_event db ++ new
         ∧ ∀ e, e ∈ new → Event.code e ≠ Event.DESCRIBE.
Proof.
  unfold add_milestone. destruct (Issue.milestone self) as [current|].
  - destruct (Milestone_objects_get db current) as [old|]; simpl; [|discriminate].
    case_decide.
    + intros [= <- _]. exists []. split; [by rewrite app_nil_r|].
      intros e He. inversion He.
    + intros [= <- _]. eexists. split.
      * destruct (Issue_save_labels commit
                    (Issue.with_milestone (Some (Milestone.id milestone)) self)
                    (Event_create now db (Issue.primarykey self) author
                       Event.CHANGE_MILESTONE
                       {[ "old_milestone" := JStr (Milestone.name old);
                          "new_milestone" := JStr (Milestone.name milestone) ]}
                       ""))
          as (_ & _ & -> & _).
        apply Event_create_events.
      * intros e ->%list_elem_of_singleton. discriminate.
  - intros [= <- _]. eexists. split.
    + destruct (Issue_save_labels commit
                  (Issue.with_milestone (Some (Milestone.id milestone)) self)
                  (Event_create now db (Issue.primarykey self) author
                     Event.SET_MILESTONE
                     {[ "milestone" := JStr (Milestone.name milestone) ]} ""))
        as (_ & _ & -> & _).
      apply Event_create_events.
    + intros e ->%list_elem_of_singleton. discriminate.
Qed.

Lemma mark_as_read_events now now_add db self user date db' :
  mark_as_read now now_add db self user = Ok (date, db') →
  tracker_event db' = tracker_event db.
Proof.
  unfold mark_as_read. destruct user as [|u]; [by intros [= _ <-]|].
  simpl negb. cbv iota.
  destruct (readstates_get db self (StoredUser u)) as [readstate|[]];
    try discriminate; by intros [= _ <-].
Qed.

(** C4, as stated, fails: [deldesc] deletes the stored DESCRIBE event and
    [setdesc] changes its body, so that the stored event is no longer in
    the table. *)
Lemma event_log_not_append_only :
  event_describe ∈ tracker_event db_two_events
  ∧ run 400 401 (DelDesc issue_crash) db_two_events
    = Ok (deldesc db_two_events issue_crash)
  ∧ (event_describe ∉ tracker_event (deldesc db_two_events issue_crash))
  ∧ run 400 401 (SetDesc issue_crash "it hangs") db_two_events
    = Ok (setdesc 400 db_two_events issue_crash "it hangs")
  ∧ (event_describe
     ∉ tracker_event (setdesc 400 db_two_events issue_crash "it hangs"))
  ∧ getdesc db_two_events issue_crash = Some "it crashes"
  ∧ getdesc (setdesc 400 db_two_events issue_crash "it hangs") issue_crash
    = Some "it hangs".
Proof.
  split; [by left|]. split; [reflexivity|]. split.
  { intros H. vm_compute in H.
    repeat (apply elem_of_cons in H as [H|H]; [discriminate H|]).
    inversion H. }
  split; [reflexivity|]. split.
  { intros H. vm_compute in H.
    repeat (apply elem_of_cons in H as [H|H]; [discriminate H|]).
    inversion H. }
  split; reflexivity.
Qed.

(** ** Who may edit *)

Lemma qs_get_Ok {A : Type} (qs : list A) (x : A) : qs_get qs = Ok x → qs = [x].
Proof. destruct qs as [|y [|z qs]]; simpl; congruence. Qed.

Lemma timedelta_in_range (d m : Z) :
  0 ≤ d < DATETIME_END → 0 ≤ d + m * US_PER_MINUTE < DATETIME_END →
  timedelta_minutes m = Ok (m * US_PER_MINUTE).
Proof.
  intros Hd Hsum. unfold timedelta_minutes. rewrite decide_True; [reflexivity|].
  unfold DATETIME_END, US_PER_DAY, US_PER_MINUTE in *.
  Z.to_euclidean_division_equations. lia.
Qed.

Lemma editable_by_own (now : datetime) (db : DB) (self : Event.t)
    (request : Request) (issue : Issue.t) :
  Event.code self = Event.COMMENT ∨ Event.code self = Event.DESCRIBE →
  Issue_objects_get db (Event.issue self) = Ok issue →
  user_is (Event.author self) (user request) = true →
  has_perm request "modify_own_comment" (Issue.project issue) = true →
  has_perm request "modify_comment" (Issue.project issue) = false →
  has_perm request "modify_issue" (Issue.project issue) = false →
  editable_by now db self request
  = if decide (Settings.edit_policy (settings request) = Settings.EDIT_TIMEOUT)
    then
      delta ← timedelta_minutes (Settings.edit_policy_timeout (settings request));
      limit ← datetime_add (Event.date self) delta;
      Ok (bool_decide (now < limit))
    else if decide (Settings.edit_policy (settings request)
                    = Settings.EDIT_NOMORECOMMENT)
    then Ok (negb (qs_exists
                     (filter (λ e, Event.code e = Event.COMMENT
                                   ∧ Event.date self < Event.date e)
                             (Issue_events db issue))))
    else Ok true.
Proof.
  intros Hcode Hissue Hauthor Hown Hcomment Hmodify.
  assert (Event.editable self = true) as Heditable.
  { unfold Event.editable.
    destruct Hcode as [-> | ->]; by rewrite ?orb_true_r. }
  unfold editable_by. rewrite Heditable, Hissue. simpl.
  by rewrite Hown, Hcomment, Hmodify, Hauthor.
Qed.

(** C5.  An event that is neither a comment nor a description is editable
    by nobody.  For a comment or description whose author asks and holds
    only the modify-own permission, [editable_by] answers: true under the
    no-timeout policy; under the timeout policy, whether the event's date
    plus the timeout in minutes is later than now; under the
    until-next-comment policy, whether the issue has no COMMENT event dated
    strictly after this event. *)
Theorem own_edit_policy (now : datetime) (db : DB) (self : Event.t)
    (request : Request) (issue : Issue.t) :
  (Event.code self ≠ Event.COMMENT → Event.code self ≠ Event.DESCRIBE →
   editable_by now db self request = Ok false)
  ∧ (Event.code self = Event.COMMENT ∨ Event.code self = Event.DESCRIBE →
     Issue_objects_get db (Event.issue self) = Ok issue →
     user_is (Event.author self) (user request) = true →
     has_perm request "modify_own_comment" (Issue.project issue) = true →
     has_perm request "modify_comment" (Issue.project issue) = false →
     has_perm request "modify_issue" (Issue.project issue) = false →
     let policy := Settings.edit_policy (settings request) in
     let timeout := Settings.edit_policy_timeout (settings request) in
     (policy = Settings.EDIT_NOTIMEOUT →
      editable_by now db self request = Ok true)
     ∧ (policy = Settings.EDIT_TIMEOUT →
        0 ≤ Event.date self < DATETIME_END →
        0 ≤ Event.date self + timeout * US_PER_MINUTE < DATETIME_END →
        editable_by now db self request
        = Ok (bool_decide (now < Event.date self + timeout * US_PER_MINUTE)))
     ∧ (policy = Settings.EDIT_NOMORECOMMENT →
        ∃ b, editable_by now db self request = Ok b
             ∧ (b = true ↔
                ∀ e, e ∈ tracker_event db →
                     Event.issue e = Event.issue self →
                     Event.code e = Event.COMMENT →
                     ¬ Event.date self < Event.date e))).
Proof.
  split.
  - intros Hc Hd. unfold editable_by, Event.editable.
    by rewrite !bool_decide_eq_false_2.
  - intros Hcode Hissue Hauthor Hown Hcomment Hmodify policy timeout.
    rewrite (editable_by_own now db self request issue) by assumption.
    fold policy. fold timeout.
    split; [|split]; intros ->.
    + reflexivity.
    + intros Hdate Hsum. rewrite decide_True by reflexivity.
      rewrite (timedelta_in_range (Event.date self) timeout) by assumption.
      simpl. unfold datetime_add. by rewrite decide_True.
    + rewrite decide_False by discriminate. rewrite decide_True by reflexivity.
      eexists. split; [reflexivity|].
      apply qs_get_Ok in Hissue.
      assert (Issue.primarykey issue = Event.issue self) as Hpk.
      { assert (issue ∈ [issue]) as Hin by left. rewrite <- Hissue in Hin.
        by apply list_elem_of_filter in Hin as [? _]. }
      rewrite negb_true_iff.
      destruct (filter _ (Issue_events db issue)) as [|x xs] eqn:Hfilter; simpl.
      * split; [|done]. intros _ e He Heissue Hecode Hlater.
        assert (e ∈ @nil Event.t) as Hnil; [|inversion Hnil].
        rewrite <- Hfilter. unfold Issue_events.
        rewrite !list_elem_of_filter. rewrite Hpk. auto.
      * split; [done|]. intros Hnone. exfalso.
        assert (x ∈ x :: xs) as Hx by left. rewrite <- Hfilter in Hx.
        unfold Issue_events in Hx. rewrite !list_elem_of_filter in Hx.
        destruct Hx as ([Hxcode Hxdate] & Hxissue & Hxin).
        apply (Hnone x); auto. by rewrite <- Hpk.
Qed.

(** ** Soft deletion *)

(** ** Progress of a milestone *)

Lemma round_half_even_bounds (a b : Z) :
  0 < b →
  a `div` b ≤ round_half_even a b ≤ a `div` b + 1
  ∧ (round_half_even a b = a `div` b + 1 → b ≤ 2 * (a `mod` b)).
Proof.
  intros Hb. unfold round_half_even.
  repeat case_decide; try destruct (Z.even _); lia.
Qed.

(** Rounding a quotient scaled by [K] and dropping the scale gives back the
    integer part of the quotient, as long as the divisor is below [2 * K]. *)
Lemma round_then_truncate (p q K : Z) :
  0 ≤ p → 0 < q → 0 < K → q < 2 * K →
  round_half_even (p * K) q `div` K = p `div` q.
Proof.
  intros Hp Hq HK Hsmall.
  pose proof (Z.div_mod p q ltac:(lia)) as Hpq.
  pose proof (Z.mod_pos_bound p q Hq) as Hr.
  pose proof (Z.div_mod (p * K) q ltac:(lia)) as HA.
  pose proof (Z.mod_pos_bound (p * K) q Hq) as HAr.
  destruct (round_half_even_bounds (p * K) q Hq) as [[Hlo Hhi] Hup].
  set (n := p `div` q) in *. set (r := p `mod` q) in *.
  set (fl := (p * K) `div` q) in *. set (ar := (p * K) `mod` q) in *.
  set (m := round_half_even (p * K) q) in *.
  assert (n * K ≤ fl) as Hfl_lo.
  { apply Z.div_le_lower_bound; [assumption|]. nia. }
  assert (fl < (n + 1) * K) as Hfl_hi.
  { apply Z.div_lt_upper_bound; [assumption|]. nia. }
  assert (m < (n + 1) * K) as Hm_hi.
  { destruct (decide (m = fl + 1)) as [Hm|Hm]; [|lia].
    specialize (Hup Hm).
    destruct (decide (fl = (n + 1) * K - 1)) as [Hfl|Hfl]; [|lia].
    exfalso. nia. }
  symmetry. apply (Z.div_unique m K n (m - n * K)); lia.
Qed.

Lemma binade_bounds (a b : Z) :
  0 < a → 0 < b → b < 2 ^ 47 → a ≤ 100 * b → -47 ≤ binade a b ≤ 6.
Proof.
  intros Ha Hb Hsmall Hle.
  pose proof (Z.log2_nonneg a) as Hla. pose proof (Z.log2_nonneg b) as Hlb.
  pose proof (proj1 (Z.log2_lt_pow2 b 47 Hb) Hsmall) as Hlb47.
  pose proof (Z.log2_spec b Hb) as [Hb_lo Hb_hi].
  assert (Z.log2 a < Z.log2 b + 8) as Hd.
  { apply Z.log2_lt_pow2; [assumption|].
    replace (Z.log2 b + 8) with (Z.succ (Z.log2 b) + 7) by lia.
    rewrite Z.pow_add_r by lia. change (2 ^ 7) with 128. lia. }
  unfold binade. case_decide as Hcmp; [|lia].
  destruct (decide (Z.log2 a - Z.log2 b = 7)) as [Heq|]; [|lia].
  rewrite Heq in Hcmp.
  rewrite (Z.max_l 7 0), (Z.max_r (- (7)) 0), Z.pow_0_r in Hcmp by lia.
  change (2 ^ 7) with 128 in Hcmp. lia.
Qed.

Lemma true_divide_floor (p q : Z) :
  0 ≤ p → 0 < q → q < 2 ^ 47 → p ≤ 100 * q →
  int_of_float <$> true_divide p q = Ok (p `div` q).
Proof.
  intros Hp Hq Hsmall Hle. unfold true_divide.
  rewrite decide_False by lia. case_decide as Hzero.
  { subst p. reflexivity. }
  rewrite (Z.abs_eq p), (Z.abs_eq q) by lia.
  pose proof (binade_bounds p q ltac:(lia) Hq Hsmall Hle) as Hj.
  set (e := Z.max (binade p q - 52) (-1074)).
  assert (-99 ≤ e ≤ -46) as He by lia.
  rewrite (Z.max_l (- e) 0), (Z.max_r e 0) by lia.
  rewrite Z.pow_0_r, !Z.mul_1_r.
  set (K := 2 ^ (- e)).
  assert (2 ^ 46 ≤ K ≤ 2 ^ 99) as HK.
  { split; apply Z.pow_le_mono_r; lia. }
  pose proof (round_then_truncate p q K Hp Hq ltac:(lia) ltac:(lia)) as Htrunc.
  destruct (round_half_even_bounds (p * K) q Hq) as [[Hlo Hhi] _].
  set (m := round_half_even (p * K) q) in *.
  assert (0 ≤ m ≤ 100 * K + 1) as Hm.
  { split.
    - etransitivity; [|exact Hlo]. apply Z.div_pos; nia.
    - etransitivity; [exact Hhi|].
      assert ((p * K) `div` q ≤ 100 * K); [|lia].
      apply Z.div_le_upper_bound; [assumption|]. nia. }
  rewrite decide_False.
  - simpl. unfold int_of_float. simpl.
    rewrite decide_False by lia. fold K.
    rewrite (Z.sgn_pos p), (Z.sgn_pos q) by lia.
    rewrite !Z.mul_1_l, Z.quot_div_nonneg by lia. by rewrite Htrunc.
  - assert (100 * 2 ^ 99 + 1 < 2 ^ 1024) by (vm_compute; reflexivity). lia.
Qed.

Lemma closed_le_total (db : DB) (self : Milestone.t) :
  0 ≤ closed_issues db self ≤ total_issues db self.
Proof.
  unfold closed_issues, total_issues, qs_count.
  pose proof (length_filter (λ i, Issue.closed i = true)
                            (Milestone_issues db self)).
  lia.
Qed.





Example true_divide_samples :
  true_divide 1 10 = Ok (mkFloat 7205759403792794 (-56))
  ∧ true_divide 1 3 = Ok (mkFloat 6004799503160661 (-54))
  ∧ true_divide 200 3 = Ok (mkFloat 4691249611844267 (-46))
  ∧ true_divide (-7) 2 = Ok (mkFloat (-7881299347898368) (-51))
  ∧ true_divide (2 ^ 1024) 1 = Raise OverflowError
  ∧ true_divide 1 (2 ^ 1075) = Ok (mkFloat 0 (-1074)).
Proof. vm_compute. repeat split. Qed.

(** With far more issues than there are keys the rounding can reach the
    next integer: with [100 * 2 ^ 50] issues of which all but one hundredth
    and one are closed, the quotient [99 - 2 ^ -50] rounds to 99. *)
Example true_divide_rounds_up :
  int_of_float <$> true_divide (100 * (99 * 2 ^ 50 - 1)) (100 * 2 ^ 50) = Ok 99
  ∧ (100 * (99 * 2 ^ 50 - 1)) `div` (100 * 2 ^ 50) = 98.
Proof. vm_compute. split; reflexivity. Qed.

(** ** The properties at the sample data *)

Lemma next_id_previous_plus_one_witness :
  next_id db_two_events project_tack = 1
  ∧ ∃ last_issue,
      last_issue ∈ tracker_issue db_two_events
      ∧ Issue.project last_issue = Project.id project_pony
      ∧ (∀ j, j ∈ tracker_issue db_two_events →
              Issue.project j = Project.id project_pony →
              Issue.primarykey j ≤ Issue.primarykey last_issue)
      ∧ next_id db_two_events project_pony = Issue.id last_issue + 1.
Proof.
  split.
  - apply (next_id_previous_plus_one db_two_events project_tack).
    intros i ->%list_elem_of_singleton. discriminate.
  - apply (next_id_previous_plus_one db_two_events project_pony) with issue_crash.
    + by left.
    + reflexivity.
Defined.

Lemma issue_id_unique_within_project_witness :
  issue_unique_together db_two_projects.
Proof.
  apply issue_id_unique_within_project. repeat constructor.
Defined.

Lemma description_is_one_event_witness :
  getdesc empty_db issue_crash = None
  ∧ getdesc (setdesc 400 empty_db issue_crash "it crashes") issue_crash
    = Some "it crashes"
  ∧ length (tracker_event (setdesc 400 db_two_events issue_crash "it hangs"))
    = length (tracker_event db_two_events)
  ∧ getdesc (setdesc 400 db_two_events issue_crash "it hangs") issue_crash
    = Some "it hangs".
Proof.
  destruct (description_is_one_event 400 empty_db issue_crash "it crashes")
    as [Hcreate _].
  destruct Hcreate as (Hnone & desc & _ & _ & _ & _ & Hread).
  { intros e He. inversion He. }
  destruct (description_is_one_event 400 db_two_events issue_crash "it hangs")
    as [_ Hupdate].
  destruct (Hupdate event_describe) as (desc' & _ & _ & Hlen & _ & Hread').
  { by left. }
  { reflexivity. }
  { reflexivity. }
  exact (conj Hnone (conj Hread (conj Hlen Hread'))).
Defined.

Lemma add_label_guarded_remove_label_not_witness :
  add_label 400 db_two_events issue_crash 6 label_old true = db_two_events
  ∧ tracker_event (add_label 400 db_two_events issue_crash 6 label_bug true)
    = tracker_event db_two_events
      ++ [Event.mk 4 1 400 6 Event.ADD_LABEL {[ "label" := JInt 1 ]} ""].
Proof.
  split.
  - apply (add_label_guarded_remove_label_not 400 db_two_events issue_crash 6
             label_old true).
    exists label_old. split; [|reflexivity].
    apply list_elem_of_filter. split; [by left|by right; left].
  - apply (add_label_guarded_remove_label_not 400 db_two_events issue_crash 6
             label_bug true).
    intros l [Hattached _]%list_elem_of_filter Hid.
    apply list_elem_of_singleton in Hattached. injection Hattached as Hl.
    rewrite Hid in Hl. discriminate Hl.
Defined.

Lemma own_edit_policy_witness :
  editable_by 500 db_two_events event_comment request_author
  = Ok (bool_decide (500 < 200 + 30 * US_PER_MINUTE)).
Proof.
  apply (own_edit_policy 500 db_two_events event_comment request_author
           issue_crash); try reflexivity.
  - by left.
  - vm_compute. split; [discriminate|reflexivity].
  - vm_compute. split; [discriminate|reflexivity].
Defined.


Example progress_two_of_three : progress db_milestone milestone_v1 = Ok 66.
Proof. vm_compute. reflexivity. Qed.

(** * Further properties of the models *)

(** ** Tables under [save()] *)

Lemma filter_fmap_same {A : Type} (P : A → Prop) `{∀ x, Decision (P x)}
    (f : A → A) (l : list A) :
  (∀ x, x ∈ l → f x = x ∨ (¬ P x ∧ ¬ P (f x))) →
  filter P (f <$> l) = filter P l.
Proof.
  induction l as [|y l IH]; intros Hf; [reflexivity|].
  rewrite fmap_cons, !filter_cons.
  rewrite IH by (intros x Hx; apply Hf; by right).
  destruct (Hf y) as [-> | [Hy Hfy]]; [by left|reflexivity|].
  by rewrite !decide_False.
Qed.

Lemma fmap_key_preserved {A K : Type} (key : A → K) (f : A → A) (l : list A) :
  (∀ x, x ∈ l → key (f x) = key x) → key <$> (f <$> l) = key <$> l.
Proof.
  intros Hkey. rewrite <- list_fmap_compose. apply list_fmap_ext.
  intros n x Hx. simpl. apply Hkey, list_elem_of_lookup. eauto.
Qed.

Lemma save_row_stored {A : Type} (pk : A → Z) (row row' : A) (table : list A) :
  row ∈ table → pk row' = pk row →
  save_row pk row' table
  = (λ r, if decide (pk r = pk row') then row' else r) <$> table.
Proof.
  intros Hin Hpk. unfold save_row.
  destruct (filter _ table) as [|x xs] eqn:Hfilter; [|reflexivity].
  exfalso. assert (row ∈ @nil A) as Hnil; [|inversion Hnil].
  rewrite <- Hfilter. apply list_elem_of_filter. auto.
Qed.

Lemma unique_on_filter_cases {A K : Type} `{EqDecision K} (key : A → K)
    (table : list A) (k : K) :
  unique_on key table →
  filter (λ y, key y = k) table = []
  ∨ ∃ x, x ∈ table ∧ key x = k ∧ filter (λ y, key y = k) table = [x].
Proof.
  intros Huniq. destruct (filter _ table) as [|x xs] eqn:Hfilter; [by left|].
  right. exists x.
  assert (x ∈ filter (λ y, key y = k) table) as Hx by (rewrite Hfilter; left).
  apply list_elem_of_filter in Hx as [Hk Hx]. subst k.
  split; [assumption|]. split; [reflexivity|].
  rewrite <- Hfilter. by apply filter_unique_on.
Qed.

(** ** Marking an issue as read *)

Lemma readstates_get_cases db self u :
  readstate_unique_together db →
  (∃ readstate,
     readstate ∈ tracker_readstate db
     ∧ ReadState.issue readstate = Issue.primarykey self
     ∧ ReadState.user readstate = u
     ∧ readstates_get db self (StoredUser u) = Ok readstate)
  ∨ ((∀ r, r ∈ tracker_readstate db →
           ¬ (ReadState.issue r = Issue.primarykey self ∧ ReadState.user r = u))
     ∧ readstates_get db self (StoredUser u) = Raise ObjectDoesNotExist).
Proof.
  intros Huniq.
  destruct (unique_on_filter_cases
              (λ r, (ReadState.issue r, ReadState.user r))
              (tracker_readstate db) (Issue.primarykey self, u) Huniq)
    as [Hnil | (readstate & Hin & Hkey & _)].
  - right.
    assert (∀ r, r ∈ tracker_readstate db →
                 ¬ (ReadState.issue r = Issue.primarykey self
                    ∧ ReadState.user r = u)) as Hnone.
    { intros r Hr [Hissue Huser].
      assert (r ∈ @nil ReadState.t) as Hnil'; [|inversion Hnil'].
      rewrite <- Hnil. apply list_elem_of_filter.
      split; [by rewrite Hissue, Huser|assumption]. }
    split; [assumption|]. by apply readstates_get_missing.
  - left. injection Hkey as Hissue Huser. exists readstate.
    repeat split; try assumption. by apply readstates_get_found.
Qed.

(** What [mark_as_read] does for a stored user: it returns, it keeps the
    keys of the read states in order, it leaves one read state for the pair
    with the time of this reading, and it touches no other pair. *)
Lemma mark_as_read_stored now now_add db self u :
  readstate_keys_ok db →
  ∃ olddate db' readstate,
    mark_as_read now now_add db self (StoredUser u) = Ok (olddate, db')
    ∧ readstate_keys_ok db'
    ∧ tracker_event db' = tracker_event db
    ∧ tracker_issue db' = tracker_issue db
    ∧ readstate ∈ tracker_readstate db'
    ∧ ReadState.issue readstate = Issue.primarykey self
    ∧ ReadState.user readstate = u
    ∧ ((∃ old, old ∈ tracker_readstate db
               ∧ ReadState.issue old = Issue.primarykey self
               ∧ ReadState.user old = u
               ∧ olddate = ReadState.lastread old
               ∧ ReadState.lastread readstate = now)
       ∨ ((∀ r, r ∈ tracker_readstate db →
                ¬ (ReadState.issue r = Issue.primarykey self
                   ∧ ReadState.user r = u))
          ∧ olddate = Issue.opened_at self
          ∧ ReadState.lastread readstate = now_add))
    ∧ (∀ r, (ReadState.issue r, ReadState.user r) ≠ (Issue.primarykey self, u) →
            r ∈ tracker_readstate db' ↔ r ∈ tracker_readstate db).
Proof.
  intros (Hids & Hbelow & Huniq). unfold mark_as_read. simpl negb. cbv iota.
  destruct (readstates_get_cases db self u Huniq)
    as [(old & Hin & Hissue & Huser & ->) | [Hnone ->]].
  - set (new := ReadState.with_lastread now old).
    set (f := λ r, if decide (ReadState.id r = ReadState.id new) then new else r).
    assert (∀ r, r ∈ tracker_readstate db → ReadState.id r = ReadState.id new →
                 r = old) as Hold.
    { intros r Hr Hid.
      by apply (unique_on_inj ReadState.id (tracker_readstate db)). }
    assert (tracker_readstate
              (set_readstates (save_row ReadState.id new) db)
            = f <$> tracker_readstate db) as Htable.
    { simpl. by apply (save_row_stored ReadState.id old). }
    eexists _, _, new. split; [reflexivity|].
    split; [|split; [reflexivity|split; [reflexivity|]]].
    { unfold readstate_keys_ok, readstate_unique_together, unique_on.
      rewrite Htable. split; [|split].
      - rewrite fmap_key_preserved; [assumption|].
        intros r Hr. unfold f. by case_decide.
      - intros r (r0 & -> & Hr0)%list_elem_of_fmap. unfold f.
        case_decide as Hid; [rewrite <- Hid|]; by apply Hbelow.
      - rewrite fmap_key_preserved; [assumption|].
        intros r Hr. unfold f. case_decide as Hid; [|reflexivity].
        by rewrite (Hold r Hr Hid). }
    rewrite Htable. split.
    { apply list_elem_of_fmap. exists old. split; [|assumption].
      unfold f. by rewrite decide_True. }
    split; [assumption|]. split; [assumption|]. split.
    { left. exists old. by repeat split. }
    intros r Hkey. split.
    + intros (r0 & -> & Hr0)%list_elem_of_fmap. unfold f in *.
      case_decide as Hid; [|assumption].
      exfalso. apply Hkey. simpl. by rewrite Hissue, Huser.
    + intros Hr. apply list_elem_of_fmap. exists r. split; [|assumption].
      unfold f. case_decide as Hid; [|reflexivity].
      exfalso. apply Hkey. rewrite (Hold r Hr Hid). by rewrite Hissue, Huser.
  - simpl.
    eexists _, _, (ReadState.mk (seq_readstate db) (Issue.primarykey self) u
                                now_add).
    split; [reflexivity|]. simpl.
    split; [|split; [reflexivity|split; [reflexivity|]]].
    { unfold readstate_keys_ok, readstate_unique_together, unique_on. simpl.
      rewrite !fmap_app. split; [|split].
      - apply NoDup_app. split; [assumption|]. split; [|apply NoDup_singleton].
        intros id (r & -> & Hr)%list_elem_of_fmap ?%list_elem_of_singleton.
        specialize (Hbelow r Hr). simpl in *. lia.
      - intros r [Hr| ->%list_elem_of_singleton]%elem_of_app; simpl.
        + specialize (Hbelow r Hr). lia.
        + lia.
      - apply NoDup_app. split; [assumption|]. split; [|apply NoDup_singleton].
        intros key (r & -> & Hr)%list_elem_of_fmap [= ? ?]%list_elem_of_singleton.
        by apply (Hnone r Hr). }
    split; [apply elem_of_app; right; by left|].
    split; [reflexivity|]. split; [reflexivity|]. split.
    { right. by repeat split. }
    intros r Hkey. rewrite elem_of_app, list_elem_of_singleton. split.
    + intros [?| ->]; [assumption|]. by exfalso.
    + auto.
Qed.

Lemma unread_with_readstate db self u readstate :
  readstate_unique_together db →
  readstate ∈ tracker_readstate db →
  ReadState.issue readstate = Issue.primarykey self →
  ReadState.user readstate = u →
  get_unread_event_nb db self (StoredUser u)
  = Ok (Z.of_nat
          (length (filter (λ e, Event.issue e = Issue.primarykey self
                                ∧ ReadState.lastread readstate < Event.date e)
                          (tracker_event db))))
  ∧ have_unread_message db self (StoredUser u)
    = Ok (bool_decide
            (0 < Z.of_nat
                   (length (filter (λ e, Event.issue e = Issue.primarykey self
                                         ∧ ReadState.lastread readstate
                                           < Event.date e)
                                   (tracker_event db))))).
Proof.
  intros Huniq Hin Hissue Huser.
  unfold get_unread_event_nb, have_unread_message. simpl negb. cbv iota.
  rewrite (readstates_get_found db self u readstate) by assumption.
  unfold Issue_events. rewrite list_filter_filter, qs_exists_length.
  unfold qs_count.
  rewrite (list_filter_iff _
             (λ e, Event.issue e = Issue.primarykey self
                   ∧ ReadState.lastread readstate < Event.date e)) by tauto.
  done.
Qed.

(** X1.  For a stored user and read states with sound keys, [mark_as_read]
    never raises: it returns the previous reading time of the pair, or the
    opening date of the issue when the pair had none, keeps the keys of the
    read states sound and leaves the events and the issues as they were. *)
Theorem mark_as_read_total (now now_add : datetime) (db : DB) (self : Issue.t)
    (u : Z) :
  readstate_keys_ok db →
  ∃ olddate db',
    mark_as_read now now_add db self (StoredUser u) = Ok (olddate, db')
    ∧ readstate_keys_ok db'
    ∧ tracker_event db' = tracker_event db
    ∧ tracker_issue db' = tracker_issue db
    ∧ ((∃ old, old ∈ tracker_readstate db
               ∧ ReadState.issue old = Issue.primarykey self
               ∧ ReadState.user old = u
               ∧ olddate = ReadState.lastread old)
       ∨ ((∀ r, r ∈ tracker_readstate db →
                ¬ (ReadState.issue r = Issue.primarykey self
                   ∧ ReadState.user r = u))
          ∧ olddate = Issue.opened_at self)).
Proof.
  intros Hok.
  destruct (mark_as_read_stored now now_add db self u Hok)
    as (olddate & db' & readstate & Hrun & Hok' & Hevents & Hissues & _ & _ & _
        & Hcase & _).
  exists olddate, db'. repeat (split; [assumption|]).
  destruct Hcase as [(old & ? & ? & ? & ? & _) | (? & ? & _)]; eauto 10.
Qed.

(** X2.  After [mark_as_read] the unread events of the pair are the events
    of the issue dated after this reading: after [now] when the pair had a
    read state, after the time of the INSERT when it had none.  When no
    event is that late, the issue has no unread message. *)
Theorem mark_as_read_then_unread (now now_add : datetime) (db db' : DB)
    (self : Issue.t) (u : Z) (olddate : datetime) :
  readstate_keys_ok db →
  mark_as_read now now_add db self (StoredUser u) = Ok (olddate, db') →
  ∃ read_at,
    ((∃ old, old ∈ tracker_readstate db
             ∧ ReadState.issue old = Issue.primarykey self
             ∧ ReadState.user old = u) ∧ read_at = now
     ∨ (∀ r, r ∈ tracker_readstate db →
             ¬ (ReadState.issue r = Issue.primarykey self
                ∧ ReadState.user r = u)) ∧ read_at = now_add)
    ∧ get_unread_event_nb db' self (StoredUser u)
      = Ok (Z.of_nat
              (length (filter (λ e, Event.issue e = Issue.primarykey self
                                    ∧ read_at < Event.date e)
                              (tracker_event db))))
    ∧ ((∀ e, e ∈ tracker_event db → Event.issue e = Issue.primarykey self →
             Event.date e ≤ read_at) →
       get_unread_event_nb db' self (StoredUser u) = Ok 0
       ∧ have_unread_message db' self (StoredUser u) = Ok false).
Proof.
  intros Hok Hrun.
  destruct (mark_as_read_stored now now_add db self u Hok)
    as (olddate0 & db0 & readstate & Hrun0 & (_ & _ & Huniq') & Hevents & _
        & Hin & Hissue & Huser & Hcase & _).
  rewrite Hrun in Hrun0. injection Hrun0 as -> ->.
  destruct (unread_with_readstate db0 self u readstate Huniq' Hin Hissue Huser)
    as [Hnb Hhave].
  rewrite Hevents in Hnb, Hhave.
  exists (ReadState.lastread readstate). split; [|split; [exact Hnb|]].
  { destruct Hcase as [(old & ? & ? & ? & _ & ->) | (? & _ & ->)]; eauto 10. }
  intros Hearly. rewrite Hnb, Hhave.
  rewrite filter_none; [done|].
  intros e He [Heissue Hlate]. specialize (Hearly e He Heissue). lia.
Qed.

Lemma mark_as_read_then_unread_witness :
  ∃ read_at,
    ((∃ old, old ∈ tracker_readstate db_two_events
             ∧ ReadState.issue old = Issue.primarykey issue_crash
             ∧ ReadState.user old = 6) ∧ read_at = 250
     ∨ (∀ r, r ∈ tracker_readstate db_two_events →
             ¬ (ReadState.issue r = Issue.primarykey issue_crash
                ∧ ReadState.user r = 6)) ∧ read_at = 350)
    ∧ get_unread_event_nb
        (mkDB [label_bug; label_old] [milestone_v1] [issue_crash] [(1, 2)]
              [ReadState.mk 1 1 5 150; ReadState.mk 2 1 6 350]
              (tracker_event db_two_events) 2 3 4)
        issue_crash (StoredUser 6)
      = Ok (Z.of_nat
              (length (filter (λ e, Event.issue e = Issue.primarykey issue_crash
                                    ∧ read_at < Event.date e)
                              (tracker_event db_two_events))))
    ∧ ((∀ e, e ∈ tracker_event db_two_events →
             Event.issue e = Issue.primarykey issue_crash →
             Event.date e ≤ read_at) →
       get_unread_event_nb
         (mkDB [label_bug; label_old] [milestone_v1] [issue_crash] [(1, 2)]
               [ReadState.mk 1 1 5 150; ReadState.mk 2 1 6 350]
               (tracker_event db_two_events) 2 3 4)
         issue_crash (StoredUser 6) = Ok 0
       ∧ have_unread_message
           (mkDB [label_bug; label_old] [milestone_v1] [issue_crash] [(1, 2)]
                 [ReadState.mk 1 1 5 150; ReadState.mk 2 1 6 350]
                 (tracker_event db_two_events) 2 3 4)
           issue_crash (StoredUser 6) = Ok false).
Proof.
  apply (mark_as_read_then_unread 250 350 db_two_events _ issue_crash 6 100).
  - split; [|split].
    + apply NoDup_singleton.
    + intros r ->%list_elem_of_singleton. simpl. lia.
    + apply NoDup_singleton.
  - reflexivity.
Defined.

Lemma db_two_events_readstates_ok : readstate_keys_ok db_two_events.
Proof.
  split; [|split].
  - apply NoDup_singleton.
  - intros r ->%list_elem_of_singleton. simpl. lia.
  - apply NoDup_singleton.
Defined.

Lemma mark_as_read_total_witness :
  ∃ olddate db',
    mark_as_read 400 401 db_two_events issue_crash (StoredUser 6)
    = Ok (olddate, db')
    ∧ readstate_keys_ok db'
    ∧ tracker_event db' = tracker_event db_two_events
    ∧ tracker_issue db' = tracker_issue db_two_events
    ∧ ((∃ old, old ∈ tracker_readstate db_two_events
               ∧ ReadState.issue old = Issue.primarykey issue_crash
               ∧ ReadState.user old = 6
               ∧ olddate = ReadState.lastread old)
       ∨ ((∀ r, r ∈ tracker_readstate db_two_events →
                ¬ (ReadState.issue r = Issue.primarykey issue_crash
                   ∧ ReadState.user r = 6))
          ∧ olddate = Issue.opened_at issue_crash)).
Proof.
  apply (mark_as_read_total 400 401 db_two_events issue_crash 6).
  exact db_two_events_readstates_ok.
Defined.

(** X3.  Two readings in a row: the second [mark_as_read] returns the time
    the first one stored, and a third returns the [now] of the second. *)
Theorem mark_as_read_returns_previous (now1 add1 now2 add2 now3 add3 : datetime)
    (db db1 : DB) (self : Issue.t) (u : Z) (olddate : datetime) :
  readstate_keys_ok db →
  mark_as_read now1 add1 db self (StoredUser u) = Ok (olddate, db1) →
  ∃ read_at db2 db3,
    ((∃ old, old ∈ tracker_readstate db
             ∧ ReadState.issue old = Issue.primarykey self
             ∧ ReadState.user old = u) ∧ read_at = now1
     ∨ (∀ r, r ∈ tracker_readstate db →
             ¬ (ReadState.issue r = Issue.primarykey self
                ∧ ReadState.user r = u)) ∧ read_at = add1)
    ∧ mark_as_read now2 add2 db1 self (StoredUser u) = Ok (read_at, db2)
    ∧ mark_as_read now3 add3 db2 self (StoredUser u) = Ok (now2, db3).
Proof.
  intros Hok Hrun.
  destruct (mark_as_read_stored now1 add1 db self u Hok)
    as (olddate0 & db0 & rs1 & Hrun0 & Hok1 & _ & _ & Hin1 & Hissue1 & Huser1
        & Hcase1 & _).
  rewrite Hrun in Hrun0. injection Hrun0 as -> ->.
  destruct (mark_as_read_stored now2 add2 db0 self u Hok1)
    as (olddate2 & db2 & rs2 & Hrun2 & Hok2 & _ & _ & Hin2 & Hissue2 & Huser2
        & Hcase2 & _).
  destruct (mark_as_read_stored now3 add3 db2 self u Hok2)
    as (olddate3 & db3 & rs3 & Hrun3 & _ & _ & _ & _ & _ & _ & Hcase3 & _).
  assert (∀ db rs rs', readstate_keys_ok db →
            rs ∈ tracker_readstate db → rs' ∈ tracker_readstate db →
            ReadState.issue rs = Issue.primarykey self → ReadState.user rs = u →
            ReadState.issue rs' = Issue.primarykey self → ReadState.user rs' = u →
            rs' = rs) as Hsame.
  { intros d rs rs' (_ & _ & Huniq) Hrs Hrs' Hi Hu Hi' Hu'.
    apply (unique_on_inj (λ r, (ReadState.issue r, ReadState.user r))
             (tracker_readstate d)); try assumption.
    by rewrite Hi, Hu, Hi', Hu'. }
  assert (olddate2 = ReadState.lastread rs1) as ->.
  { destruct Hcase2 as [(old & Hold & Hi & Hu & -> & _) | (Hnone & _)].
    - by rewrite (Hsame db0 rs1 old).
    - exfalso. by apply (Hnone rs1). }
  assert (ReadState.lastread rs2 = now2) as Hnow2.
  { destruct Hcase2 as [(old & _ & _ & _ & _ & ?) | (Hnone & _)]; [assumption|].
    exfalso. by apply (Hnone rs1). }
  assert (olddate3 = now2) as ->.
  { destruct Hcase3 as [(old & Hold & Hi & Hu & -> & _) | (Hnone & _)].
    - by rewrite (Hsame db2 rs2 old).
    - exfalso. by apply (Hnone rs2). }
  exists (ReadState.lastread rs1), db2, db3. split; [|by split].
  destruct Hcase1 as [(old & ? & ? & ? & _ & ->) | (? & _ & ->)]; eauto 10.
Qed.

Lemma mark_as_read_returns_previous_witness :
  ∃ read_at db2 db3,
    ((∃ old, old ∈ tracker_readstate db_two_events
             ∧ ReadState.issue old = Issue.primarykey issue_crash
             ∧ ReadState.user old = 6) ∧ read_at = 400
     ∨ (∀ r, r ∈ tracker_readstate db_two_events →
             ¬ (ReadState.issue r = Issue.primarykey issue_crash
                ∧ ReadState.user r = 6)) ∧ read_at = 401)
    ∧ mark_as_read 500 501
        (mkDB [label_bug; label_old] [milestone_v1] [issue_crash] [(1, 2)]
              [ReadState.mk 1 1 5 150; ReadState.mk 2 1 6 401]
              (tracker_event db_two_events) 2 3 4)
        issue_crash (StoredUser 6) = Ok (read_at, db2)
    ∧ mark_as_read 600 601 db2 issue_crash (StoredUser 6) = Ok (500, db3).
Proof.
  apply (mark_as_read_returns_previous 400 401 500 501 600 601 db_two_events _
           issue_crash 6 100).
  - exact db_two_events_readstates_ok.
  - reflexivity.
Defined.

Lemma readstates_get_other_pair now now_add db db' self u olddate self' u' :
  readstate_keys_ok db →
  mark_as_read now now_add db self (StoredUser u) = Ok (olddate, db') →
  (Issue.primarykey self', u') ≠ (Issue.primarykey self, u) →
  readstates_get db' self' (StoredUser u') = readstates_get db self' (StoredUser u').
Proof.
  intros Hok Hrun Hother.
  destruct (mark_as_read_stored now now_add db self u Hok)
    as (olddate0 & db0 & _ & Hrun0 & (_ & _ & Huniq') & _ & _ & _ & _ & _ & _
        & Hframe).
  rewrite Hrun in Hrun0. injection Hrun0 as -> ->.
  destruct Hok as (_ & _ & Huniq).
  destruct (readstates_get_cases db self' u' Huniq)
    as [(rs & Hin & Hissue & Huser & ->) | [Hnone ->]].
  - apply readstates_get_found; try assumption.
    apply Hframe; [|assumption]. by rewrite Hissue, Huser.
  - apply readstates_get_missing. intros r Hr [Hissue Huser].
    apply (Hnone r); [|auto]. apply Hframe; [|assumption].
    by rewrite Hissue, Huser.
Qed.

Lemma unread_other_pair (now now_add : datetime) (db db' : DB)
    (self : Issue.t) (u : Z) (olddate : datetime) (self' : Issue.t) (u' : Z) :
  readstate_keys_ok db →
  mark_as_read now now_add db self (StoredUser u) = Ok (olddate, db') →
  (Issue.primarykey self', u') ≠ (Issue.primarykey self, u) →
  get_unread_event_nb db' self' (StoredUser u')
  = get_unread_event_nb db self' (StoredUser u')
  ∧ have_unread_message db' self' (StoredUser u')
    = have_unread_message db self' (StoredUser u').
Proof.
  intros Hok Hrun Hother.
  pose proof (readstates_get_other_pair now now_add db db' self u olddate
                self' u' Hok Hrun Hother) as Hget.
  destruct (mark_as_read_stored now now_add db self u Hok)
    as (olddate0 & db0 & _ & Hrun0 & _ & Hevents & _).
  rewrite Hrun in Hrun0. injection Hrun0 as -> ->.
  unfold get_unread_event_nb, have_unread_message, Issue_events.
  by rewrite Hget, Hevents.
Qed.

(** X4.  [mark_as_read] concerns one pair only: for every other issue or
    other user the unread count and the unread flag are what they were. *)
Theorem mark_as_read_other_pairs (now now_add : datetime) (db db' : DB)
    (self : Issue.t) (u : Z) (olddate : datetime) (self' : Issue.t) (u' : Z) :
  readstate_keys_ok db →
  mark_as_read now now_add db self (StoredUser u) = Ok (olddate, db') →
  (Issue.primarykey self', u') ≠ (Issue.primarykey self, u) →
  get_unread_event_nb db' self' (StoredUser u')
  = get_unread_event_nb db self' (StoredUser u')
  ∧ have_unread_message db' self' (StoredUser u')
    = have_unread_message db self' (StoredUser u').
Proof.
  exact (unread_other_pair now now_add db db' self u olddate self' u').
Qed.

Lemma mark_as_read_other_pairs_witness :
  get_unread_event_nb
    (set_readstates (save_row ReadState.id (ReadState.mk 1 1 5 400))
                    db_two_events)
    issue_crash (StoredUser 6)
  = get_unread_event_nb db_two_events issue_crash (StoredUser 6)
  ∧ have_unread_message
      (set_readstates (save_row ReadState.id (ReadState.mk 1 1 5 400))
                      db_two_events)
      issue_crash (StoredUser 6)
    = have_unread_message db_two_events issue_crash (StoredUser 6).
Proof.
  apply (mark_as_read_other_pairs 400 401 db_two_events _ issue_crash 5 150
           issue_crash 6).
  - exact db_two_events_readstates_ok.
  - reflexivity.
  - discriminate.
Defined.

(** ** Unread issues of a project *)

Lemma have_unread_message_returns db self u :
  readstate_unique_together db →
  ∃ b, have_unread_message db self (StoredUser u) = Ok b.
Proof.
  intros Huniq. unfold have_unread_message. simpl negb. cbv iota.
  destruct (readstates_get_cases db self u Huniq)
    as [(rs & _ & _ & _ & ->) | [_ ->]]; eauto.
Qed.

Lemma count_unread_length db u issues count :
  readstate_unique_together db →
  count_unread db (StoredUser u) issues count
  = Ok (count
        + Z.of_nat
            (length (filter (λ i, have_unread_message db i (StoredUser u) = Ok true)
                            issues))).
Proof.
  intros Huniq. revert count.
  induction issues as [|issue rest IH]; intros count; simpl.
  - f_equal. lia.
  - destruct (have_unread_message_returns db issue u Huniq) as [b Hb].
    rewrite filter_cons, Hb. simpl. rewrite IH.
    destruct b.
    + rewrite decide_True by reflexivity. simpl length. f_equal. lia.
    + rewrite decide_False by discriminate. reflexivity.
Qed.

(** X5.  For a stored user, [Project.get_unread_issues_nb] is the number of
    the project's issues for which [have_unread_message] holds; it lies
    between 0 and the number of issues of the project. *)
Theorem unread_issues_counted (db : DB) (project : Project.t) (u : Z) :
  readstate_unique_together db →
  get_unread_issues_nb db project (StoredUser u)
  = Ok (Z.of_nat
          (length (filter (λ i, have_unread_message db i (StoredUser u) = Ok true)
                          (Project_issues db project))))
  ∧ 0 ≤ Z.of_nat
          (length (filter (λ i, have_unread_message db i (StoredUser u) = Ok true)
                          (Project_issues db project)))
      ≤ qs_count (Project_issues db project).
Proof.
  intros Huniq. unfold get_unread_issues_nb. simpl negb. cbv iota.
  rewrite count_unread_length by assumption. split; [f_equal; lia|].
  unfold qs_count.
  pose proof (length_filter
                (λ i, have_unread_message db i (StoredUser u) = Ok true)
                (Project_issues db project)).
  lia.
Qed.

Lemma unread_issues_counted_witness :
  get_unread_issues_nb db_two_events project_pony (StoredUser 5) = Ok 1.
Proof.
  apply (unread_issues_counted db_two_events project_pony 5).
  apply NoDup_singleton.
Defined.

(** ** The event table under the write operations *)

Lemma length_filter_fmap {A : Type} (P : A → Prop) `{∀ x, Decision (P x)}
    (f : A → A) (l : list A) :
  (∀ x, x ∈ l → P (f x) ↔ P x) →
  length (filter P (f <$> l)) = length (filter P l).
Proof.
  induction l as [|y l IH]; intros Hf; [reflexivity|].
  rewrite fmap_cons, !filter_cons.
  pose proof (Hf y ltac:(left)) as Hy.
  assert (length (filter P (f <$> l)) = length (filter P l)) as Hl
    by (apply IH; intros x Hx; apply Hf; by right).
  repeat case_decide; simpl; try tauto; by rewrite Hl.
Qed.

Lemma unique_on_filter {A K : Type} (key : A → K) (P : A → Prop)
    `{∀ x, Decision (P x)} (table : list A) :
  unique_on key table → unique_on key (filter P table).
Proof.
  unfold unique_on. intros Huniq.
  apply (sublist_NoDup _ (key <$> table)); [assumption|].
  apply fmap_sublist, sublist_filter.
Qed.

(** The four things a write operation can do to the event table: nothing,
    append one event with a fresh key, replace the body of the description
    event, delete the description event. *)
Lemma run_events now now_add o db db' :
  run now now_add o db = Ok db' →
  (tracker_event db' = tracker_event db ∧ seq_event db' = seq_event db)
  ∨ (∃ e, tracker_event db' = tracker_event db ++ [e]
          ∧ seq_event db' = seq_event db + 1
          ∧ Event.id e = seq_event db
          ∧ Event.issue e = Issue.primarykey (op_self o)
          ∧ Event.date e = now
          ∧ (Event.code e = Event.DESCRIBE →
             getdescevent db (op_self o) = None))
  ∨ (∃ value desc,
       o = SetDesc (op_self o) value
       ∧ getdescevent db (op_self o) = Some desc
       ∧ seq_event db' = seq_event db
       ∧ tracker_event db'
         = (λ e, if decide (Event.id e = Event.id desc)
                 then Event.with_additionnal_section value desc else e)
           <$> tracker_event db)
  ∨ (∃ desc,
       o = DelDesc (op_self o)
       ∧ getdescevent db (op_self o) = Some desc
       ∧ seq_event db' = seq_event db
       ∧ tracker_event db'
         = filter (λ e, Event.id e ≠ Event.id desc) (tracker_event db)).
Proof.
  intros Hrun.
  destruct o as [self value|self|self author label commit
                |self author label commit|self author milestone commit
                |self author milestone commit|self usr]; simpl in Hrun |- *.
  - injection Hrun as <-. unfold setdesc.
    destruct (getdescevent db self) as [desc|] eqn:Hget.
    + right; right; left. exists value, desc.
      pose proof Hget as (Hin & _)%getdescevent_Some.
      split; [reflexivity|]. split; [reflexivity|]. split; [reflexivity|].
      unfold set_events. cbn [tracker_event].
      by rewrite (save_row_stored Event.id desc
                    (Event.with_additionnal_section value desc)).
    + right; left. eexists. split; [apply Event_create_events|].
      simpl. by repeat split.
  - injection Hrun as <-. unfold deldesc.
    destruct (getdescevent db self) as [desc|] eqn:Hget.
    + right; right; right. exists desc. by repeat split.
    + by left.
  - injection Hrun as <-. unfold add_label. destruct (qs_exists _); [by left|].
    right; left. eexists. rewrite Event_create_events. simpl.
    destruct (Issue_save_labels commit self
                (set_issue_labels
                   (labels_add (Issue.primarykey self) (Label.id label)) db))
      as (_ & _ & -> & ->).
    by repeat split.
  - injection Hrun as <-. unfold remove_label.
    right; left. eexists. rewrite Event_create_events. simpl.
    destruct (Issue_save_labels commit self
                (set_issue_labels
                   (labels_remove (Issue.primarykey self) (Label.id label)) db))
      as (_ & _ & -> & ->).
    by repeat split.
  - unfold add_milestone in Hrun. destruct (Issue.milestone self) as [current|].
    + destruct (Milestone_objects_get db current) as [old|]; simpl in Hrun;
        [|discriminate].
      case_decide; simpl in Hrun; injection Hrun as <-; [by left|].
      right; left. eexists.
      match goal with
      | |- context [Issue_save ?c ?s ?d] =>
          destruct (Issue_save_labels c s d) as (_ & _ & -> & ->)
      end.
      rewrite Event_create_events. simpl. by repeat split.
    + simpl in Hrun. injection Hrun as <-. right; left. eexists.
      match goal with
      | |- context [Issue_save ?c ?s ?d] =>
          destruct (Issue_save_labels c s d) as (_ & _ & -> & ->)
      end.
      rewrite Event_create_events. simpl. by repeat split.
  - injection Hrun as <-. unfold remove_milestone. simpl fst.
    right; left. eexists. rewrite Event_create_events. simpl.
    destruct (Issue_save_labels commit (Issue.with_milestone None self) db)
      as (_ & _ & -> & ->).
    by repeat split.
  - left. unfold mark_as_read in Hrun. destruct usr as [|u]; simpl in Hrun.
    + by injection Hrun as <-.
    + destruct (qs_get _) as [readstate|[]]; simpl in Hrun;
        try discriminate; by injection Hrun as <-.
Qed.

(** C4, as the code has it.  The label and milestone mutators and
    [mark_as_read] only append to the event table, and what they append is
    no DESCRIBE event.  [setdesc] on an issue with a description keeps every
    stored event except the issue's DESCRIBE event, of which it replaces
    the body and nothing else; on an issue without one it appends one
    DESCRIBE event with the value.  [deldesc] deletes the issue's DESCRIBE
    event and keeps every other stored event; without a description it
    leaves the table as it is. *)
Theorem event_log_append_only_but_description (now now_add : datetime) (o : op)
    (db db' : DB) :
  unique_on Event.id (tracker_event db) →
  run now now_add o db = Ok db' →
  match o with
  | SetDesc self value =>
      match getdescevent db self with
      | Some desc =>
          let desc' := Event.with_additionnal_section value desc in
          length (tracker_event db') = length (tracker_event db)
          ∧ Event.id desc' = Event.id desc
          ∧ Event.issue desc' = Event.issue desc
          ∧ Event.code desc' = Event.code desc
          ∧ Event.author desc' = Event.author desc
          ∧ Event.date desc' = Event.date desc
          ∧ Event.args desc' = Event.args desc
          ∧ Event.additionnal_section desc' = value
          ∧ ∀ e, e ∈ tracker_event db'
                 ↔ (e ∈ tracker_event db ∧ e ≠ desc) ∨ e = desc'
      | None =>
          tracker_event db'
          = tracker_event db
            ++ [Event.mk (seq_event db) (Issue.primarykey self) now
                         (Issue.author self) Event.DESCRIBE ∅ value]
      end
  | DelDesc self =>
      match getdescevent db self with
      | Some desc =>
          ∀ e, e ∈ tracker_event db' ↔ e ∈ tracker_event db ∧ e ≠ desc
      | None => tracker_event db' = tracker_event db
      end
  | AddLabel _ _ _ _ | RemoveLabel _ _ _ _ | AddMilestone _ _ _ _
  | RemoveMilestone _ _ _ _ | MarkAsRead _ _ =>
      ∃ new, tracker_event db' = tracker_event db ++ new
             ∧ ∀ e, e ∈ new → Event.code e ≠ Event.DESCRIBE
  end.
Proof.
  intros Huniq Hrun.
  destruct o as [self value|self|self author label commit
                |self author label commit|self author milestone commit
                |self author milestone commit|self usr]; simpl in Hrun.
  - injection Hrun as <-. unfold setdesc.
    destruct (getdescevent db self) as [desc|] eqn:Hget;
      [|apply Event_create_events].
    apply getdescevent_Some in Hget as (Hin & _).
    unfold set_events. cbn [tracker_event].
    rewrite (save_row_stored Event.id desc
               (Event.with_additionnal_section value desc)) by done.
    cbv zeta. split; [by rewrite length_fmap|].
    do 7 (split; [reflexivity|]).
    intros e. rewrite list_elem_of_fmap. split.
    + intros (x & -> & Hx). simpl.
      case_decide as Hid; [by right|]. left. split; [assumption|].
      intros ->. by apply Hid.
    + intros [[He Hne] | ->].
      * exists e. split; [|assumption]. rewrite decide_False; [reflexivity|].
        intros Hid. apply Hne.
        by apply (unique_on_inj Event.id (tracker_event db)).
      * exists desc. split; [|assumption]. by rewrite decide_True.
  - injection Hrun as <-. unfold deldesc.
    destruct (getdescevent db self) as [desc|] eqn:Hget; [|reflexivity].
    apply getdescevent_Some in Hget as (Hin & _).
    intros e. unfold set_events, delete_row. cbn [tracker_event].
    rewrite list_elem_of_filter. split.
    + intros [Hid He]. split; [assumption|]. intros ->. by apply Hid.
    + intros [He Hne]. split; [|assumption]. intros Hid. apply Hne.
      by apply (unique_on_inj Event.id (tracker_event db)).
  - injection Hrun as <-. unfold add_label. destruct (qs_exists _).
    + exists []. split; [by rewrite app_nil_r|]. intros e He. inversion He.
    + eexists. split.
      * rewrite Event_create_events.
        destruct (Issue_save_labels commit self
                    (set_issue_labels
                       (labels_add (Issue.primarykey self) (Label.id label)) db))
          as (_ & _ & -> & _). reflexivity.
      * intros e ->%list_elem_of_singleton. discriminate.
  - injection Hrun as <-. eexists. split.
    + unfold remove_label. rewrite Event_create_events.
      destruct (Issue_save_labels commit self
                  (set_issue_labels
                     (labels_remove (Issue.primarykey self) (Label.id label)) db))
        as (_ & _ & -> & _). reflexivity.
    + intros e ->%list_elem_of_singleton. discriminate.
  - destruct (add_milestone now db self author milestone commit)
      as [[db1 self1]|] eqn:Hadd; [|discriminate].
    injection Hrun as <-. eapply add_milestone_events, Hadd.
  - injection Hrun as <-. eexists. split.
    + unfold remove_milestone. simpl.
      destruct (Issue_save_labels commit (Issue.with_milestone None self) db)
        as (_ & _ & -> & _). reflexivity.
    + intros e ->%list_elem_of_singleton. discriminate.
  - destruct (mark_as_read now now_add db self usr)
      as [[date db1]|] eqn:Hmark; [|discriminate].
    injection Hrun as <-. exists []. split.
    + rewrite app_nil_r. eapply mark_as_read_events, Hmark.
    + intros e He. inversion He.
Qed.

Lemma event_log_append_only_but_description_witness :
  event_comment ∈ tracker_event (deldesc db_two_events issue_crash)
  ∧ (event_describe ∉ tracker_event (deldesc db_two_events issue_crash)).
Proof.
  assert (∀ e, e ∈ tracker_event (deldesc db_two_events issue_crash)
               ↔ e ∈ tracker_event db_two_events ∧ e ≠ event_describe) as Hdel.
  { apply (event_log_append_only_but_description 400 401 (DelDesc issue_crash)
             db_two_events (deldesc db_two_events issue_crash)).
    - unfold unique_on. simpl.
      repeat (apply NoDup_cons; split;
              [rewrite ?elem_of_cons, elem_of_nil; lia|]).
      apply NoDup_nil_2.
    - reflexivity. }
  split.
  - apply Hdel. split; [by right; left|discriminate].
  - intros [_ Hne]%Hdel. by apply Hne.
Defined.

(** X6.  Every write operation keeps the primary keys of the events unique
    and below the sequence: no key is ever used twice. *)
Theorem run_keeps_event_keys (now now_add : datetime) (o : op) (db db' : DB) :
  event_keys_ok db → run now now_add o db = Ok db' → event_keys_ok db'.
Proof.
  intros [Huniq Hbelow] Hrun. unfold event_keys_ok, unique_on in *.
  destruct (run_events now now_add o db db' Hrun)
    as [[-> ->] | [(e & -> & -> & Hid & _)
       | [(value & desc & _ & _ & -> & ->) | (desc & _ & _ & -> & ->)]]].
  - by split.
  - rewrite fmap_app. split.
    + apply NoDup_app. split; [assumption|]. split; [|apply NoDup_singleton].
      intros id (x & -> & Hx)%list_elem_of_fmap ?%list_elem_of_singleton.
      specialize (Hbelow x Hx). lia.
    + intros x [Hx| ->%list_elem_of_singleton]%elem_of_app.
      * specialize (Hbelow x Hx). lia.
      * lia.
  - split.
    + rewrite fmap_key_preserved; [assumption|].
      intros x Hx. by case_decide.
    + intros x (x0 & -> & Hx0)%list_elem_of_fmap.
      case_decide as Hid; [simpl; rewrite <- Hid|]; by apply Hbelow.
  - split.
    + by apply (unique_on_filter Event.id).
    + intros x [_ Hx]%list_elem_of_filter. by apply Hbelow.
Qed.

Lemma db_two_events_keys_ok : event_keys_ok db_two_events.
Proof.
  split.
  - unfold unique_on. simpl.
    repeat (apply NoDup_cons; split;
            [rewrite ?elem_of_cons, elem_of_nil; lia|]).
    apply NoDup_nil_2.
  - intros e He. simpl in He.
    repeat (apply elem_of_cons in He as [->|He]; [simpl; lia|]).
    inversion He.
Defined.

Lemma run_keeps_event_keys_witness :
  event_keys_ok (setdesc 400 db_two_events issue_crash "it hangs").
Proof.
  apply (run_keeps_event_keys 400 401 (SetDesc issue_crash "it hangs")
           db_two_events).
  - exact db_two_events_keys_ok.
  - reflexivity.
Defined.

(** X7.  Every write operation keeps at most one DESCRIBE event per issue:
    [setdesc] never creates a second description. *)
Theorem run_keeps_single_description (now now_add : datetime) (o : op)
    (db db' : DB) :
  event_keys_ok db → single_description db →
  run now now_add o db = Ok db' → single_description db'.
Proof.
  intros [Huniq _] Hsingle Hrun issue. specialize (Hsingle issue).
  destruct (run_events now now_add o db db' Hrun)
    as [[-> _] | [(e & -> & _ & _ & Hissue & _ & Hcode)
       | [(value & desc & _ & Hget & _ & ->) | (desc & _ & _ & _ & ->)]]].
  - assumption.
  - rewrite filter_app, length_app, filter_cons, filter_nil.
    case_decide as He; [|simpl; lia].
    destruct He as [<- He]. specialize (Hcode He).
    rewrite filter_none; [simpl; lia|].
    intros x Hx [Hxissue Hxcode].
    eapply getdescevent_None in Hcode; eauto. congruence.
  - apply getdescevent_Some in Hget as (Hin & _).
    rewrite length_filter_fmap; [assumption|].
    intros x Hx. case_decide as Hid; [|reflexivity].
    by rewrite (unique_on_inj Event.id (tracker_event db) x desc).
  - rewrite list_filter_filter.
    rewrite (list_filter_iff _
               (λ e, Event.id e ≠ Event.id desc
                     ∧ (Event.issue e = issue ∧ Event.code e = Event.DESCRIBE)))
      by tauto.
    rewrite <- list_filter_filter.
    etransitivity; [apply length_filter|assumption].
Qed.

Lemma run_keeps_single_description_witness :
  single_description (setdesc 400 db_two_events issue_crash "it hangs").
Proof.
  apply (run_keeps_single_description 400 401 (SetDesc issue_crash "it hangs")
           db_two_events).
  - exact db_two_events_keys_ok.
  - intros issue. simpl tracker_event. rewrite !filter_cons, filter_nil.
    repeat case_decide; simpl; try lia;
      repeat match goal with H : _ ∧ _ |- _ => destruct H end;
      discriminate.
  - reflexivity.
Defined.

(** ** Unread counts under edits of the description and under new events *)

(** The two counters read the events only through the number of events of
    an issue, all or dated after some time. *)
Lemma unread_ext db db' self user :
  tracker_readstate db' = tracker_readstate db →
  (∀ t, length (filter (λ e, t < Event.date e
                             ∧ Event.issue e = Issue.primarykey self)
                       (tracker_event db'))
        = length (filter (λ e, t < Event.date e
                               ∧ Event.issue e = Issue.primarykey self)
                         (tracker_event db))) →
  length (filter (λ e, Event.issue e = Issue.primarykey self) (tracker_event db'))
  = length (filter (λ e, Event.issue e = Issue.primarykey self)
                   (tracker_event db)) →
  get_unread_event_nb db' self user = get_unread_event_nb db self user
  ∧ have_unread_message db' self user = have_unread_message db self user.
Proof.
  intros Hrs Hlate Hall.
  unfold get_unread_event_nb, have_unread_message.
  destruct user as [|u]; [done|]. simpl negb. cbv iota.
  unfold readstates_get, Issue_readstates. rewrite Hrs.
  destruct (qs_get _) as [rs|[]]; try done.
  - unfold Issue_events. rewrite !qs_exists_length. unfold qs_count.
    by rewrite !list_filter_filter, Hlate.
  - unfold qs_count, Issue_events. by rewrite Hall.
Qed.

(** X8.  Rewriting an existing description is silent: it changes no unread
    count and no unread flag, for any issue and any user, since the
    description event keeps its date. *)
Theorem setdesc_edit_keeps_unread (now : datetime) (db : DB) (self : Issue.t)
    (value : string) (desc : Event.t) (issue : Issue.t) (user : User) :
  event_keys_ok db →
  getdescevent db self = Some desc →
  get_unread_event_nb (setdesc now db self value) issue user
  = get_unread_event_nb db issue user
  ∧ have_unread_message (setdesc now db self value) issue user
    = have_unread_message db issue user.
Proof.
  intros [Huniq _] Hget.
  pose proof Hget as (Hin & _)%getdescevent_Some.
  assert (tracker_event (setdesc now db self value)
          = (λ e, if decide (Event.id e = Event.id desc)
                  then Event.with_additionnal_section value desc else e)
            <$> tracker_event db) as Hevents.
  { unfold setdesc. rewrite Hget. unfold set_events. cbn [tracker_event].
    by rewrite (save_row_stored Event.id desc
                  (Event.with_additionnal_section value desc)). }
  assert (∀ x, x ∈ tracker_event db → Event.id x = Event.id desc → x = desc)
    as Hsame.
  { intros x Hx Hid. by apply (unique_on_inj Event.id (tracker_event db)). }
  apply unread_ext.
  - unfold setdesc. by rewrite Hget.
  - intros t. rewrite Hevents. apply length_filter_fmap.
    intros x Hx. case_decide as Hid; [|reflexivity]. by rewrite (Hsame x Hx Hid).
  - rewrite Hevents. apply length_filter_fmap.
    intros x Hx. case_decide as Hid; [|reflexivity]. by rewrite (Hsame x Hx Hid).
Qed.

Lemma setdesc_edit_keeps_unread_witness :
  get_unread_event_nb (setdesc 400 db_two_events issue_crash "it hangs")
    issue_crash (StoredUser 5)
  = get_unread_event_nb db_two_events issue_crash (StoredUser 5)
  ∧ have_unread_message (setdesc 400 db_two_events issue_crash "it hangs")
      issue_crash (StoredUser 5)
    = have_unread_message db_two_events issue_crash (StoredUser 5).
Proof.
  apply (setdesc_edit_keeps_unread 400 db_two_events issue_crash "it hangs"
           event_describe).
  - exact db_two_events_keys_ok.
  - reflexivity.
Defined.

Lemma appended_event_is_unread db db' self u readstate e :
  readstate_unique_together db →
  readstate ∈ tracker_readstate db →
  ReadState.issue readstate = Issue.primarykey self →
  ReadState.user readstate = u →
  tracker_readstate db' = tracker_readstate db →
  tracker_event db' = tracker_event db ++ [e] →
  Event.issue e = Issue.primarykey self →
  ReadState.lastread readstate < Event.date e →
  ∃ n, get_unread_event_nb db self (StoredUser u) = Ok n
       ∧ get_unread_event_nb db' self (StoredUser u) = Ok (n + 1)
       ∧ have_unread_message db' self (StoredUser u) = Ok true.
Proof.
  intros Huniq Hin Hissue Huser Hrs Hevents Heissue Hlate.
  destruct (unread_with_readstate db self u readstate Huniq Hin Hissue Huser)
    as [Hnb _].
  assert (readstate_unique_together db') as Huniq'
    by (unfold readstate_unique_together; by rewrite Hrs).
  rewrite <- Hrs in Hin.
  destruct (unread_with_readstate db' self u readstate Huniq' Hin Hissue Huser)
    as [Hnb' Hhave'].
  rewrite Hevents, filter_app, filter_cons_True, filter_nil, length_app
    in Hnb', Hhave' by done.
  simpl length in Hnb', Hhave'.
  eexists. split; [exact Hnb|]. split.
  - rewrite Hnb'. f_equal. lia.
  - rewrite Hhave'. f_equal. apply bool_decide_eq_true. lia.
Qed.

(** X9.  [remove_label] and [remove_milestone] each raise by exactly one the
    unread count of a reader whose last reading is earlier than the call,
    and make the issue unread for that reader. *)
Theorem removal_is_unread (now : datetime) (db : DB) (self : Issue.t)
    (author : Z) (label : Label.t) (milestone : Milestone.t) (commit : bool)
    (u : Z) (readstate : ReadState.t) :
  readstate_unique_together db →
  readstate ∈ tracker_readstate db →
  ReadState.issue readstate = Issue.primarykey self →
  ReadState.user readstate = u →
  ReadState.lastread readstate < now →
  ∃ n, get_unread_event_nb db self (StoredUser u) = Ok n
       ∧ get_unread_event_nb (remove_label now db self author label commit)
           self (StoredUser u) = Ok (n + 1)
       ∧ have_unread_message (remove_label now db self author label commit)
           self (StoredUser u) = Ok true
       ∧ get_unread_event_nb
           (remove_milestone now db self author milestone commit).1
           self (StoredUser u) = Ok (n + 1)
       ∧ have_unread_message
           (remove_milestone now db self author milestone commit).1
           self (StoredUser u) = Ok true.
Proof.
  intros Huniq Hin Hissue Huser Hlate.
  edestruct (appended_event_is_unread db
               (remove_label now db self author label commit) self u readstate)
    as (n & Hn & Hlabel & Hlabel'); try eassumption.
  { unfold remove_label. by destruct commit. }
  { unfold remove_label. rewrite Event_create_events.
    destruct (Issue_save_labels commit self
                (set_issue_labels
                   (labels_remove (Issue.primarykey self) (Label.id label)) db))
      as (_ & _ & -> & ->). reflexivity. }
  { reflexivity. }
  { assumption. }
  edestruct (appended_event_is_unread db
               (remove_milestone now db self author milestone commit).1
               self u readstate)
    as (m & Hm & Hmilestone & Hmilestone'); try eassumption.
  { unfold remove_milestone. by destruct commit. }
  { unfold remove_milestone. cbn [fst]. rewrite Event_create_events.
    destruct (Issue_save_labels commit (Issue.with_milestone None self) db)
      as (_ & _ & -> & ->). reflexivity. }
  { reflexivity. }
  { assumption. }
  rewrite Hn in Hm. injection Hm as <-.
  exists n. by repeat split.
Qed.

Lemma removal_is_unread_witness :
  ∃ n, get_unread_event_nb db_two_events issue_crash (StoredUser 5) = Ok n
       ∧ get_unread_event_nb
           (remove_label 400 db_two_events issue_crash 6 label_old true)
           issue_crash (StoredUser 5) = Ok (n + 1)
       ∧ have_unread_message
           (remove_label 400 db_two_events issue_crash 6 label_old true)
           issue_crash (StoredUser 5) = Ok true
       ∧ get_unread_event_nb
           (remove_milestone 400 db_two_events issue_crash 6 milestone_v1 true).1
           issue_crash (StoredUser 5) = Ok (n + 1)
       ∧ have_unread_message
           (remove_milestone 400 db_two_events issue_crash 6 milestone_v1 true).1
           issue_crash (StoredUser 5) = Ok true.
Proof.
  apply (removal_is_unread 400 db_two_events issue_crash 6 label_old
           milestone_v1 true 5 (ReadState.mk 1 1 5 150)).
  - apply NoDup_singleton.
  - by left.
  - reflexivity.
  - reflexivity.
  - simpl. lia.
Defined.

(** ** Deleting the description *)

Lemma filter_all {A : Type} (P : A → Prop) `{∀ x, Decision (P x)} (l : list A) :
  (∀ x, x ∈ l → P x) → filter P l = l.
Proof.
  induction l as [|y l IH]; intros Hall; [reflexivity|].
  rewrite filter_cons_True by (apply Hall; left).
  f_equal. apply IH. intros x Hx. apply Hall. by right.
Qed.

Lemma getdescevent_created now db self author args body :
  getdescevent db self = None →
  getdescevent
    (Event_create now db (Issue.primarykey self) author Event.DESCRIBE args body)
    self
  = Some (Event.mk (seq_event db) (Issue.primarykey self) now author
                   Event.DESCRIBE args body).
Proof.
  intros Hget. pose proof (proj1 (getdescevent_None db self) Hget) as Hnone.
  unfold getdescevent, Issue_events.
  rewrite Event_create_events, !filter_app.
  rewrite list_filter_filter, filter_none;
    [|intros x Hx [Hc Hi]; exact (Hnone x Hx Hi Hc)].
  rewrite filter_cons_True by reflexivity.
  rewrite filter_cons_True by reflexivity. reflexivity.
Qed.

Lemma at_most_one {A : Type} (l : list A) (x y : A) :
  (length l ≤ 1)%nat → x ∈ l → y ∈ l → x = y.
Proof.
  destruct l as [|a [|b l]]; simpl; intros Hlen Hx Hy.
  - inversion Hx.
  - apply list_elem_of_singleton in Hx, Hy. congruence.
  - lia.
Qed.

(** X10.  On an issue without description, deleting the description does
    nothing, and writing then deleting it gives back the event table as it
    was, with no description to read. *)
Theorem deldesc_undoes_setdesc (now : datetime) (db : DB) (self : Issue.t)
    (value : string) :
  event_keys_ok db →
  getdescevent db self = None →
  deldesc db self = db
  ∧ tracker_event (deldesc (setdesc now db self value) self) = tracker_event db
  ∧ getdesc (deldesc (setdesc now db self value) self) self = None.
Proof.
  intros [_ Hbelow] Hnone.
  assert (tracker_event (deldesc (setdesc now db self value) self)
          = tracker_event db) as Hevents.
  { unfold setdesc. rewrite Hnone. unfold deldesc.
    rewrite getdescevent_created by assumption.
    unfold set_events, delete_row. cbn [tracker_event Event_create Event.id].
    rewrite filter_app, filter_cons_False, filter_nil, app_nil_r by auto.
    apply filter_all. intros x Hx. specialize (Hbelow x Hx). lia. }
  split; [unfold deldesc; by rewrite Hnone|]. split; [exact Hevents|].
  unfold getdesc.
  replace (getdescevent (deldesc (setdesc now db self value) self) self)
    with (@None Event.t); [reflexivity|].
  symmetry. apply getdescevent_None. rewrite Hevents.
  by apply getdescevent_None.
Qed.

Lemma deldesc_undoes_setdesc_witness :
  deldesc db_two_projects issue_crash = db_two_projects
  ∧ tracker_event
      (deldesc (setdesc 400 db_two_projects issue_crash "it crashes") issue_crash)
    = tracker_event db_two_projects
  ∧ getdesc
      (deldesc (setdesc 400 db_two_projects issue_crash "it crashes") issue_crash)
      issue_crash = None.
Proof.
  apply (deldesc_undoes_setdesc 400 db_two_projects issue_crash "it crashes").
  - split; [apply NoDup_nil_2|]. intros e He. inversion He.
  - reflexivity.
Defined.

(** X11.  When no issue has two DESCRIBE events, deleting the description
    leaves the issue without one: reading it afterwards gives [None], and
    the table has lost exactly the description event. *)
Theorem deldesc_leaves_no_description (db : DB) (self : Issue.t)
    (desc : Event.t) :
  event_keys_ok db → single_description db →
  getdescevent db self = Some desc →
  getdesc (deldesc db self) self = None
  ∧ (∀ e, e ∈ tracker_event (deldesc db self)
          ↔ e ∈ tracker_event db ∧ e ≠ desc).
Proof.
  intros [Huniq _] Hsingle Hget.
  pose proof Hget as (Hin & Hissue & Hcode & _)%getdescevent_Some.
  assert (tracker_event (deldesc db self)
          = filter (λ e, Event.id e ≠ Event.id desc) (tracker_event db))
    as Hevents by (unfold deldesc; by rewrite Hget).
  assert (∀ e, e ∈ tracker_event (deldesc db self)
               ↔ e ∈ tracker_event db ∧ e ≠ desc) as Hmem.
  { intros e. rewrite Hevents, list_elem_of_filter. split.
    - intros [Hid He]. split; [assumption|]. intros ->. by apply Hid.
    - intros [He Hne]. split; [|assumption]. intros Hid. apply Hne.
      by apply (unique_on_inj Event.id (tracker_event db)). }
  split; [|exact Hmem].
  unfold getdesc.
  replace (getdescevent (deldesc db self) self) with (@None Event.t);
    [reflexivity|].
  symmetry. apply getdescevent_None. intros e [He Hne]%Hmem Heissue Hecode.
  apply Hne.
  apply (at_most_one
           (filter (λ e, Event.issue e = Issue.primarykey self
                         ∧ Event.code e = Event.DESCRIBE) (tracker_event db)));
    [apply Hsingle| |]; by apply list_elem_of_filter.
Qed.

Lemma db_two_events_single_description : single_description db_two_events.
Proof.
  intros issue. simpl tracker_event. rewrite !filter_cons, filter_nil.
  repeat case_decide; simpl; try lia;
    repeat match goal with H : _ ∧ _ |- _ => destruct H end;
    discriminate.
Defined.

Lemma deldesc_leaves_no_description_witness :
  getdesc (deldesc db_two_events issue_crash) issue_crash = None
  ∧ (∀ e, e ∈ tracker_event (deldesc db_two_events issue_crash)
          ↔ e ∈ tracker_event db_two_events ∧ e ≠ event_describe).
Proof.
  apply (deldesc_leaves_no_description db_two_events issue_crash event_describe).
  - exact db_two_events_keys_ok.
  - exact db_two_events_single_description.
  - reflexivity.
Defined.

(** ** Labels of an issue *)

Lemma add_label_tables now db self author label commit :
  tracker_label (add_label now db self author label commit) = tracker_label db
  ∧ (tracker_issue_labels (add_label now db self author label commit)
     = tracker_issue_labels db
     ∨ tracker_issue_labels (add_label now db self author label commit)
       = labels_add (Issue.primarykey self) (Label.id label)
                    (tracker_issue_labels db)).
Proof.
  unfold add_label. destruct (qs_exists _); [by split; [|left]|].
  simpl.
  destruct (Issue_save_labels commit self
              (set_issue_labels
                 (labels_add (Issue.primarykey self) (Label.id label)) db))
    as (-> & -> & _).
  split; [reflexivity|by right].
Qed.

Lemma remove_label_tables now db self author label commit :
  tracker_label (remove_label now db self author label commit) = tracker_label db
  ∧ tracker_issue_labels (remove_label now db self author label commit)
    = labels_remove (Issue.primarykey self) (Label.id label)
                    (tracker_issue_labels db).
Proof.
  unfold remove_label. simpl.
  destruct (Issue_save_labels commit self
              (set_issue_labels
                 (labels_remove (Issue.primarykey self) (Label.id label)) db))
    as (-> & -> & _).
  by split.
Qed.

Lemma elem_of_labels_add issue label rows pair :
  pair ∈ labels_add issue label rows ↔ pair ∈ rows ∨ pair = (issue, label).
Proof.
  unfold labels_add. case_decide as Hin.
  - split; [auto|]. intros [?| ->]; assumption.
  - by rewrite elem_of_app, list_elem_of_singleton.
Qed.

(** X12.  [remove_label] detaches the label from the issue and nothing
    else: the issue keeps its other labels, and the labels of every other
    issue are what they were. *)
Theorem remove_label_detaches (now : datetime) (db : DB) (self : Issue.t)
    (author : Z) (label : Label.t) (commit : bool) :
  (∀ l, l ∈ Issue_labels (remove_label now db self author label commit) self
        ↔ l ∈ Issue_labels db self ∧ Label.id l ≠ Label.id label)
  ∧ (∀ other, Issue.primarykey other ≠ Issue.primarykey self →
       Issue_labels (remove_label now db self author label commit) other
       = Issue_labels db other).
Proof.
  destruct (remove_label_tables now db self author label commit)
    as [Hlabels Hlinks].
  unfold Issue_labels. rewrite Hlabels, Hlinks. unfold labels_remove. split.
  - intros l. rewrite !list_elem_of_filter. split.
    + intros [[Hne Hin] Hl]. split; [by split|]. intros Hid. apply Hne.
      by rewrite Hid.
    + intros [[Hin Hl] Hne]. split; [|assumption]. split; [|assumption].
      intros [= Hid]. by apply Hne.
  - intros other Hother. apply list_filter_iff. intros l.
    rewrite list_elem_of_filter. split; [by intros [_ ?]|].
    intros Hin. split; [|assumption]. intros [= Hpk _]. by apply Hother.
Qed.

(** X13.  Adding a stored label twice is adding it once: the second
    [add_label] finds the label attached and changes nothing, whoever calls
    it and whenever.  Every other issue keeps its labels. *)
Theorem add_label_twice (now now' : datetime) (db : DB) (self : Issue.t)
    (author author' : Z) (label : Label.t) (commit commit' : bool) :
  label ∈ tracker_label db →
  add_label now' (add_label now db self author label commit) self author'
            label commit'
  = add_label now db self author label commit
  ∧ (∀ other, Issue.primarykey other ≠ Issue.primarykey self →
       Issue_labels (add_label now db self author label commit) other
       = Issue_labels db other).
Proof.
  intros Hstored.
  destruct (add_label_tables now db self author label commit)
    as [Hlabels Hlinks].
  split.
  - assert (label ∈ Issue_labels (add_label now db self author label commit)
                                 self) as Hattached.
    { unfold Issue_labels. rewrite Hlabels. apply list_elem_of_filter.
      split; [|assumption].
      destruct Hlinks as [Hsame| ->]; [|apply elem_of_labels_add; by right].
      rewrite Hsame. unfold add_label in Hsame.
      destruct (filter _ (Issue_labels db self)) as [|x xs] eqn:Hfilter.
      - simpl in Hsame.
        destruct (Issue_save_labels commit self
                    (set_issue_labels
                       (labels_add (Issue.primarykey self) (Label.id label)) db))
          as (_ & Hsaved & _).
        rewrite Hsaved in Hsame. simpl in Hsame. rewrite <- Hsame.
        apply elem_of_labels_add. by right.
      - assert (x ∈ x :: xs) as Hx by left. rewrite <- Hfilter in Hx.
        apply list_elem_of_filter in Hx as [Hid Hx].
        apply list_elem_of_filter in Hx as [Hx _]. by rewrite <- Hid. }
    unfold add_label at 1.
    destruct (filter _ (Issue_labels (add_label _ _ _ _ _ _) self))
      as [|x xs] eqn:Hfilter; [|reflexivity].
    exfalso. assert (label ∈ @nil Label.t) as Hnil; [|inversion Hnil].
    rewrite <- Hfilter. by apply list_elem_of_filter.
  - intros other Hother. unfold Issue_labels. rewrite Hlabels.
    destruct Hlinks as [-> | ->]; [reflexivity|].
    apply list_filter_iff. intros l. rewrite elem_of_labels_add.
    split; [|auto]. intros [?|[= Hpk _]]; [assumption|]. by exfalso.
Qed.

Lemma add_label_twice_witness :
  add_label 500 (add_label 400 db_two_events issue_crash 6 label_bug true)
            issue_crash 5 label_bug false
  = add_label 400 db_two_events issue_crash 6 label_bug true
  ∧ (∀ other, Issue.primarykey other ≠ Issue.primarykey issue_crash →
       Issue_labels (add_label 400 db_two_events issue_crash 6 label_bug true)
                    other
       = Issue_labels db_two_events other).
Proof.
  apply (add_label_twice 400 500 db_two_events issue_crash 6 5 label_bug
           true false).
  by left.
Defined.

(** X14.  The links between issues and labels stay free of duplicates under
    [add_label] and [remove_label]. *)
Theorem label_links_stay_unique (now : datetime) (db : DB) (self : Issue.t)
    (author : Z) (label : Label.t) (commit : bool) :
  NoDup (tracker_issue_labels db) →
  NoDup (tracker_issue_labels (add_label now db self author label commit))
  ∧ NoDup (tracker_issue_labels (remove_label now db self author label commit)).
Proof.
  intros Hnodup. split.
  - destruct (add_label_tables now db self author label commit)
      as [_ [-> | ->]]; [assumption|].
    unfold labels_add. case_decide as Hin; [assumption|].
    apply NoDup_app. split; [assumption|]. split; [|apply NoDup_singleton].
    intros pair Hpair ->%list_elem_of_singleton. by apply Hin.
  - destruct (remove_label_tables now db self author label commit) as [_ ->].
    by apply NoDup_filter.
Qed.

Lemma label_links_stay_unique_witness :
  NoDup (tracker_issue_labels
           (add_label 400 db_two_events issue_crash 6 label_bug true))
  ∧ NoDup (tracker_issue_labels
             (remove_label 400 db_two_events issue_crash 6 label_bug true)).
Proof.
  apply (label_links_stay_unique 400 db_two_events issue_crash 6 label_bug true).
  apply NoDup_singleton.
Defined.

(** ** The milestone of an issue *)

Lemma Issue_save_milestones commit self db :
  tracker_milestone (Issue_save commit self db) = tracker_milestone db.
Proof. by destruct commit. Qed.

Lemma Milestone_objects_get_id db id milestone :
  Milestone_objects_get db id = Ok milestone → Milestone.id milestone = id.
Proof.
  intros Hget%qs_get_Ok.
  assert (milestone ∈ [milestone]) as Hin by left. rewrite <- Hget in Hin.
  by apply list_elem_of_filter in Hin as [? _].
Qed.

(** How [add_milestone] ends when it returns: with everything as it was
    because the issue already had the milestone, or with one event logged
    and the milestone assigned. *)
Lemma add_milestone_cases now db self author milestone commit db' self' :
  add_milestone now db self author milestone commit = Ok (db', self') →
  (db' = db ∧ self' = self
   ∧ Issue.milestone self = Some (Milestone.id milestone))
  ∨ (self' = Issue.with_milestone (Some (Milestone.id milestone)) self
     ∧ Issue.milestone self ≠ Some (Milestone.id milestone)
     ∧ ∃ event,
         db' = Issue_save commit self'
                 (mkDB (tracker_label db) (tracker_milestone db)
                       (tracker_issue db) (tracker_issue_labels db)
                       (tracker_readstate db) (tracker_event db ++ [event])
                       (seq_issue db) (seq_readstate db) (seq_event db + 1))
         ∧ Event.id event = seq_event db
         ∧ Event.issue event = Issue.primarykey self
         ∧ Event.author event = author
         ∧ Event.date event = now
         ∧ match Issue.milestone self with
           | Some current =>
               ∃ old, Milestone_objects_get db current = Ok old
                      ∧ Event.code event = Event.CHANGE_MILESTONE
                      ∧ Event.args event
                        = {[ "old_milestone" := JStr (Milestone.name old);
                             "new_milestone" := JStr (Milestone.name milestone) ]}
           | None =>
               Event.code event = Event.SET_MILESTONE
               ∧ Event.args event
                 = {[ "milestone" := JStr (Milestone.name milestone) ]}
           end).
Proof.
  unfold add_milestone. destruct (Issue.milestone self) as [current|] eqn:Hm.
  - destruct (Milestone_objects_get db current) as [old|] eqn:Hold; simpl;
      [|discriminate].
    pose proof (Milestone_objects_get_id db current old Hold) as Hid.
    case_decide as Hsame; intros [= <- <-].
    + left. repeat split. congruence.
    + right. split; [reflexivity|]. split; [congruence|].
      eexists. split; [reflexivity|]. simpl. repeat split. eauto.
  - intros [= <- <-]. right. split; [reflexivity|]. split; [discriminate|].
    eexists. split; [reflexivity|]. simpl. by repeat split.
Qed.

(** X15.  Assigning a stored milestone twice is assigning it once: after
    [add_milestone] the issue object carries the milestone, and a second
    [add_milestone] with it logs nothing and changes nothing. *)
Theorem add_milestone_twice (now now' : datetime) (db db' : DB)
    (self self' : Issue.t) (author author' : Z) (milestone : Milestone.t)
    (commit commit' : bool) :
  unique_on Milestone.id (tracker_milestone db) →
  milestone ∈ tracker_milestone db →
  add_milestone now db self author milestone commit = Ok (db', self') →
  Issue.milestone self' = Some (Milestone.id milestone)
  ∧ add_milestone now' db' self' author' milestone commit' = Ok (db', self').
Proof.
  intros Huniq Hstored Hadd.
  assert (∀ d, tracker_milestone d = tracker_milestone db →
               Milestone_objects_get d (Milestone.id milestone) = Ok milestone)
    as Hget.
  { intros d Hd. unfold Milestone_objects_get. rewrite Hd.
    by rewrite (filter_unique_on Milestone.id _ milestone Huniq Hstored). }
  assert (tracker_milestone db' = tracker_milestone db) as Hsame.
  { destruct (add_milestone_cases _ _ _ _ _ _ _ _ Hadd)
      as [(-> & _) | (_ & _ & event & -> & _)]; [reflexivity|].
    by rewrite Issue_save_milestones. }
  assert (Issue.milestone self' = Some (Milestone.id milestone)) as Hm.
  { destruct (add_milestone_cases _ _ _ _ _ _ _ _ Hadd)
      as [(_ & -> & ?) | (-> & _)]; [assumption|reflexivity]. }
  split; [exact Hm|].
  unfold add_milestone. rewrite Hm, (Hget db' Hsame). simpl.
  by rewrite decide_True.
Qed.

Lemma add_milestone_twice_witness :
  Issue.milestone (Issue.with_milestone (Some 7) issue_crash) = Some 7
  ∧ add_milestone 500
      (Issue_save true (Issue.with_milestone (Some 7) issue_crash)
         (Event_create 400 db_two_events 1 6 Event.SET_MILESTONE
            {[ "milestone" := JStr "v1" ]} ""))
      (Issue.with_milestone (Some 7) issue_crash) 5 milestone_v1 false
    = Ok (Issue_save true (Issue.with_milestone (Some 7) issue_crash)
            (Event_create 400 db_two_events 1 6 Event.SET_MILESTONE
               {[ "milestone" := JStr "v1" ]} ""),
          Issue.with_milestone (Some 7) issue_crash).
Proof.
  apply (add_milestone_twice 400 500 db_two_events _ issue_crash _ 6 5
           milestone_v1 true false).
  - apply NoDup_singleton.
  - by left.
  - reflexivity.
Defined.

Lemma save_row_get (self self' : Issue.t) (db : DB) :
  unique_on Issue.primarykey (tracker_issue db) → self ∈ tracker_issue db →
  Issue.primarykey self' = Issue.primarykey self →
  Issue_objects_get (set_issues (save_row Issue.primarykey self') db)
                    (Issue.primarykey self) = Ok self'.
Proof.
  intros Huniq Hin Hpk. unfold Issue_objects_get, set_issues.
  cbn [tracker_issue]. rewrite (save_row_stored Issue.primarykey self) by done.
  rewrite <- Hpk.
  rewrite (filter_unique_on Issue.primarykey _ self'); [reflexivity| |].
  - unfold unique_on. rewrite fmap_key_preserved; [assumption|].
    intros x Hx. by case_decide.
  - apply list_elem_of_fmap. exists self. by rewrite decide_True.
Qed.

(** X16.  With [commit] on a stored issue, [add_milestone] stores what it
    returns: the row of the issue is the returned object and the issue is
    among the issues of the milestone.  Without [commit] the issue table is
    left as it was, while the same event is logged. *)
Theorem add_milestone_commit (now : datetime) (db db' : DB)
    (self self' : Issue.t) (author : Z) (milestone : Milestone.t) :
  unique_on Issue.primarykey (tracker_issue db) →
  self ∈ tracker_issue db →
  add_milestone now db self author milestone true = Ok (db', self') →
  Issue_objects_get db' (Issue.primarykey self) = Ok self'
  ∧ self' ∈ Milestone_issues db' milestone
  ∧ ∃ db'', add_milestone now db self author milestone false = Ok (db'', self')
            ∧ tracker_issue db'' = tracker_issue db
            ∧ tracker_event db'' = tracker_event db'.
Proof.
  intros Huniq Hin Hadd.
  assert (Issue_objects_get db (Issue.primarykey self) = Ok self) as Hself.
  { unfold Issue_objects_get.
    by rewrite (filter_unique_on Issue.primarykey _ self Huniq Hin). }
  assert (∃ db'', add_milestone now db self author milestone false
                  = Ok (db'', self')
                  ∧ tracker_issue db'' = tracker_issue db
                  ∧ tracker_event db'' = tracker_event db') as Hdry.
  { unfold add_milestone in *.
    destruct (Issue.milestone self) as [current|].
    - destruct (Milestone_objects_get db current) as [old|]; simpl in *;
        [|discriminate].
      case_decide; injection Hadd as <- <-;
        (eexists; split; [reflexivity|by split]).
    - injection Hadd as <- <-. eexists. split; [reflexivity|by split]. }
  destruct (add_milestone_cases _ _ _ _ _ _ _ _ Hadd)
    as [(-> & -> & Hm) | (-> & _ & event & -> & _)].
  - split; [exact Hself|]. split; [|exact Hdry].
    unfold Milestone_issues. by apply list_elem_of_filter.
  - split; [|split; [|exact Hdry]].
    + by apply (save_row_get self).
    + unfold Milestone_issues. apply list_elem_of_filter.
      split; [reflexivity|]. simpl.
      rewrite (save_row_stored Issue.primarykey self) by done.
      apply list_elem_of_fmap. exists self. by rewrite decide_True.
Qed.

Lemma add_milestone_commit_witness :
  Issue_objects_get
    (Issue_save true (Issue.with_milestone (Some 7) issue_crash)
       (Event_create 400 db_two_events 1 6 Event.SET_MILESTONE
          {[ "milestone" := JStr "v1" ]} ""))
    (Issue.primarykey issue_crash)
  = Ok (Issue.with_milestone (Some 7) issue_crash)
  ∧ Issue.with_milestone (Some 7) issue_crash
    ∈ Milestone_issues
        (Issue_save true (Issue.with_milestone (Some 7) issue_crash)
           (Event_create 400 db_two_events 1 6 Event.SET_MILESTONE
              {[ "milestone" := JStr "v1" ]} ""))
        milestone_v1
  ∧ ∃ db'', add_milestone 400 db_two_events issue_crash 6 milestone_v1 false
            = Ok (db'', Issue.with_milestone (Some 7) issue_crash)
            ∧ tracker_issue db'' = tracker_issue db_two_events
            ∧ tracker_event db''
              = tracker_event
                  (Issue_save true (Issue.with_milestone (Some 7) issue_crash)
                     (Event_create 400 db_two_events 1 6 Event.SET_MILESTONE
                        {[ "milestone" := JStr "v1" ]} "")).
Proof.
  apply (add_milestone_commit 400 db_two_events _ issue_crash _ 6 milestone_v1).
  - apply NoDup_singleton.
  - by left.
  - reflexivity.
Defined.

(** X17.  [remove_milestone] does not look at the milestone the issue has:
    it logs one UNSET_MILESTONE event naming the milestone it is given and
    returns the issue without milestone; with [commit] on a stored issue the
    stored row has no milestone either, so that the issue counts for no
    milestone. *)
Theorem remove_milestone_unguarded (now : datetime) (db : DB) (self : Issue.t)
    (author : Z) (milestone : Milestone.t) (commit : bool) :
  Issue.milestone (remove_milestone now db self author milestone commit).2 = None
  ∧ tracker_event (remove_milestone now db self author milestone commit).1
    = tracker_event db
      ++ [Event.mk (seq_event db) (Issue.primarykey self) now author
                   Event.UNSET_MILESTONE
                   {[ "milestone" := JStr (Milestone.name milestone) ]} ""]
  ∧ (unique_on Issue.primarykey (tracker_issue db) → self ∈ tracker_issue db →
     Issue_objects_get (remove_milestone now db self author milestone true).1
                       (Issue.primarykey self)
     = Ok (Issue.with_milestone None self)
     ∧ ∀ any i, i ∈ Milestone_issues
                      (remove_milestone now db self author milestone true).1 any →
                Issue.primarykey i ≠ Issue.primarykey self).
Proof.
  split; [reflexivity|]. split.
  - unfold remove_milestone. cbn [fst]. rewrite Event_create_events.
    destruct (Issue_save_labels commit (Issue.with_milestone None self) db)
      as (_ & _ & -> & ->). reflexivity.
  - intros Huniq Hin.
    pose proof (save_row_get self (Issue.with_milestone None self) db Huniq Hin
                  eq_refl) as Hget.
    split; [exact Hget|].
    intros any i [Hm Hi]%list_elem_of_filter Hpk.
    apply qs_get_Ok in Hget.
    assert (i ∈ [Issue.with_milestone None self]) as Hi'.
    { rewrite <- Hget. unfold Issue_objects_get. by apply list_elem_of_filter. }
    apply list_elem_of_singleton in Hi' as ->. discriminate Hm.
Qed.

Lemma remove_milestone_unguarded_witness :
  Issue_objects_get
    (remove_milestone 400 db_two_events issue_crash 6 milestone_v1 true).1
    (Issue.primarykey issue_crash)
  = Ok (Issue.with_milestone None issue_crash)
  ∧ tracker_event
      (remove_milestone 400 db_two_events issue_crash 6 milestone_v1 true).1
    = tracker_event db_two_events
      ++ [Event.mk 4 1 400 6 Event.UNSET_MILESTONE
                   {[ "milestone" := JStr "v1" ]} ""].
Proof.
  destruct (remove_milestone_unguarded 400 db_two_events issue_crash 6
              milestone_v1 true) as (_ & Hevents & Hstored).
  split; [|exact Hevents].
  apply Hstored; [apply NoDup_singleton|by left].
Defined.

(** ** Who may edit: moderators, strangers, time *)

(** X18.  With the issue of the event stored: the permission to modify
    comments makes every comment editable and the permission to modify
    issues every description, whatever the author, the policy and the time;
    a user who has neither that permission nor the permission on their own
    comments, or who is not the author, edits nothing. *)
Theorem moderators_and_strangers (now : datetime) (db : DB) (self : Event.t)
    (request : Request) (issue : Issue.t) :
  Issue_objects_get db (Event.issue self) = Ok issue →
  (Event.code self = Event.COMMENT →
   has_perm request "modify_comment" (Issue.project issue) = true →
   editable_by now db self request = Ok true)
  ∧ (Event.code self = Event.DESCRIBE →
     has_perm request "modify_issue" (Issue.project issue) = true →
     editable_by now db self request = Ok true)
  ∧ ((Event.code self = Event.COMMENT →
      has_perm request "modify_comment" (Issue.project issue) = false) →
     (Event.code self = Event.DESCRIBE →
      has_perm request "modify_issue" (Issue.project issue) = false) →
     has_perm request "modify_own_comment" (Issue.project issue) = false
     ∨ user_is (Event.author self) (user request) = false →
     editable_by now db self request = Ok false).
Proof.
  intros Hissue. unfold editable_by, Event.editable. split; [|split].
  - intros Hcode Hperm. rewrite Hcode, Hissue. simpl. by rewrite Hperm.
  - intros Hcode Hperm. rewrite Hcode, Hissue. simpl. rewrite Hperm.
    by destruct (has_perm request "modify_comment" _).
  - intros Hcomment Hdescribe Hstranger.
    destruct (decide (Event.code self = Event.COMMENT)) as [Hc|Hc];
      [|destruct (decide (Event.code self = Event.DESCRIBE)) as [Hd|Hd]].
    + rewrite Hc, Hissue. simpl. rewrite (Hcomment Hc). simpl.
      rewrite andb_false_r.
      destruct Hstranger as [-> | ->]; by rewrite ?orb_true_r.
    + rewrite Hd, Hissue. simpl. rewrite (Hdescribe Hd). simpl.
      rewrite andb_false_r.
      destruct Hstranger as [-> | ->]; by rewrite ?orb_true_r.
    + by rewrite !bool_decide_eq_false_2.
Qed.

Lemma moderators_and_strangers_witness :
  editable_by 500000000000 db_two_events event_comment request_moderator = Ok true
  ∧ editable_by 500 db_two_events event_describe request_moderator = Ok false.
Proof.
  destruct (moderators_and_strangers 500000000000 db_two_events event_comment
              request_moderator issue_crash eq_refl) as (Hcomment & _ & _).
  destruct (moderators_and_strangers 500 db_two_events event_describe
              request_moderator issue_crash eq_refl) as (_ & _ & Hstranger).
  split.
  - by apply Hcomment.
  - apply Hstranger; [discriminate|reflexivity|by left].
Defined.

(** X19.  Time only closes the right to edit: if an event is editable by a
    request at some time, it is editable by the same request at every
    earlier time. *)
Theorem edit_window_only_closes (now earlier : datetime) (db : DB)
    (self : Event.t) (request : Request) :
  earlier ≤ now →
  editable_by now db self request = Ok true →
  editable_by earlier db self request = Ok true.
Proof.
  intros Hle. unfold editable_by.
  destruct (negb _); [done|].
  destruct (Issue_objects_get db (Event.issue self)) as [issue|]; simpl; [|done].
  destruct (_ && _); [done|]. destruct (_ && _); [done|].
  destruct (_ || _); [done|].
  case_decide; [|done].
  destruct (timedelta_minutes _) as [delta|]; simpl; [|done].
  destruct (datetime_add _ _) as [limit|]; simpl; [|done].
  intros [= Hnow%bool_decide_eq_true]. f_equal. apply bool_decide_eq_true. lia.
Qed.

Lemma edit_window_only_closes_witness :
  editable_by 300 db_two_events event_comment request_author = Ok true.
Proof.
  apply (edit_window_only_closes 500 300 db_two_events event_comment
           request_author).
  - lia.
  - reflexivity.
Defined.

Lemma qs_exists_app_r {A : Type} (l : list A) (x : A) : qs_exists (l ++ [x]) = true.
Proof. by destruct l. Qed.

(** X20.  Under the until-next-comment policy a later comment locks what
    came before: once a COMMENT event dated after an event is inserted on
    the same issue, the author holding only the modify-own permission can no
    longer edit that event. *)
Theorem next_comment_locks (now posted : datetime) (db : DB) (self : Event.t)
    (request : Request) (issue : Issue.t) (author : Z) (body : string) :
  Event.code self = Event.COMMENT ∨ Event.code self = Event.DESCRIBE →
  Issue_objects_get db (Event.issue self) = Ok issue →
  user_is (Event.author self) (user request) = true →
  has_perm request "modify_own_comment" (Issue.project issue) = true →
  has_perm request "modify_comment" (Issue.project issue) = false →
  has_perm request "modify_issue" (Issue.project issue) = false →
  Settings.edit_policy (settings request) = Settings.EDIT_NOMORECOMMENT →
  Event.date self < posted →
  editable_by now
    (Event_create posted db (Event.issue self) author Event.COMMENT ∅ body)
    self request
  = Ok false.
Proof.
  intros Hcode Hissue Hauthor Hown Hcomment Hmodify Hpolicy Hlater.
  rewrite (editable_by_own now _ self request issue); try assumption.
  rewrite Hpolicy, decide_False, decide_True by done.
  apply qs_get_Ok in Hissue.
  assert (Issue.primarykey issue = Event.issue self) as Hpk.
  { assert (issue ∈ [issue]) as Hin by left. rewrite <- Hissue in Hin.
    by apply list_elem_of_filter in Hin as [? _]. }
  unfold Issue_events. rewrite Event_create_events, !filter_app.
  rewrite (filter_cons_True _ _ []) by (by simpl).
  rewrite filter_nil, (filter_cons_True _ _ []) by (by simpl).
  by rewrite filter_nil, qs_exists_app_r.
Qed.

Lemma next_comment_locks_witness :
  editable_by 500
    (Event_create 450 db_two_projects 1 6 Event.COMMENT ∅ "me too")
    (Event.mk 7 1 100 5 Event.DESCRIBE ∅ "it crashes") request_until_next
  = Ok false.
Proof.
  apply (next_comment_locks 500 450 db_two_projects
           (Event.mk 7 1 100 5 Event.DESCRIBE ∅ "it crashes") request_until_next
           (Issue.mk 1 1 1 "a" 5 10 None false None None) 6 "me too");
    try reflexivity.
  by right.
Defined.

(** ** Due dates and icons *)

(** X21.  An issue without due date is never overdue, and an overdue issue
    stays overdue as time passes. *)
Theorem overdue_stays (now later : datetime) (self : Issue.t) :
  (Issue.due_date self = None → overdue now self = false)
  ∧ (now ≤ later → overdue now self = true → overdue later self = true).
Proof.
  unfold overdue. split.
  - by intros ->.
  - intros Hle. destruct (Issue.due_date self) as [due|]; [|done].
    intros Hdue%bool_decide_eq_true. apply bool_decide_eq_true. lia.
Qed.

(** X22.  The icon tells the editable events apart and the unknown codes:
    it is "comment" or "edit" exactly for the events [editable] accepts,
    and "cog" exactly for the codes outside 1..16. *)
Theorem glyphicon_groups (self : Event.t) :
  (glyphicon self = "comment" ∨ glyphicon self = "edit"
   ↔ Event.editable self = true)
  ∧ (glyphicon self = "cog" ↔ ¬ 1 ≤ Event.code self ≤ 16).
Proof.
  unfold glyphicon, Event.editable, Event.COMMENT, Event.DESCRIBE, Event.CLOSE,
    Event.REOPEN, Event.RENAME, Event.ADD_LABEL, Event.DEL_LABEL,
    Event.SET_MILESTONE, Event.CHANGE_MILESTONE, Event.UNSET_MILESTONE,
    Event.REFERENCE, Event.ASSIGN, Event.UNASSIGN, Event.SET_DUE_DATE,
    Event.CHANGE_DUE_DATE, Event.UNSET_DUE_DATE.
  rewrite orb_true_iff, !bool_decide_eq_true.
  repeat case_decide; split; split; intros; try lia; try discriminate;
    try (intuition discriminate); auto.
Qed.

(** ** Reading an issue and the unread issues of its project *)

Lemma have_unread_message_key db self self' user :
  Issue.primarykey self' = Issue.primarykey self →
  have_unread_message db self' user = have_unread_message db self user.
Proof.
  intros Hpk. unfold have_unread_message, readstates_get, Issue_readstates,
    Issue_events.
  by rewrite Hpk.
Qed.

(** X23.  Reading an issue whose events are all earlier than the reading
    takes it out of the unread issues: afterwards
    [Project.get_unread_issues_nb] is the number of the other issues of the
    project that were unread before. *)
Theorem reading_clears_issue (now now_add : datetime) (db db' : DB)
    (self : Issue.t) (u : Z) (olddate : datetime) (project : Project.t) :
  readstate_keys_ok db →
  mark_as_read now now_add db self (StoredUser u) = Ok (olddate, db') →
  (∀ e, e ∈ tracker_event db → Event.issue e = Issue.primarykey self →
        Event.date e ≤ now ∧ Event.date e ≤ now_add) →
  get_unread_issues_nb db' project (StoredUser u)
  = Ok (Z.of_nat
          (length
             (filter (λ i, Issue.primarykey i ≠ Issue.primarykey self
                           ∧ have_unread_message db i (StoredUser u) = Ok true)
                     (Project_issues db project)))).
Proof.
  intros Hok Hrun Hearly.
  destruct (mark_as_read_stored now now_add db self u Hok)
    as (olddate0 & db0 & readstate & Hrun0 & (_ & _ & Huniq') & Hevents
        & Hissues & Hin & Hissue & Huser & Hcase & _).
  rewrite Hrun in Hrun0. injection Hrun0 as -> ->.
  assert (have_unread_message db0 self (StoredUser u) = Ok false) as Hread.
  { destruct (unread_with_readstate db0 self u readstate Huniq' Hin Hissue Huser)
      as [_ ->].
    rewrite Hevents, filter_none; [done|].
    intros e He [Heissue Hlate]. destruct (Hearly e He Heissue).
    destruct Hcase as [(old & _ & _ & _ & _ & Hat) | (_ & _ & Hat)];
      rewrite Hat in Hlate; lia. }
  unfold get_unread_issues_nb. simpl negb. cbv iota.
  rewrite count_unread_length by assumption.
  unfold Project_issues. rewrite Hissues. do 2 f_equal. rewrite Z.add_0_l.
  f_equal. f_equal. apply list_filter_iff. intros i.
  destruct (decide (Issue.primarykey i = Issue.primarykey self)) as [Hpk|Hpk].
  - rewrite (have_unread_message_key db0 self i _ Hpk), Hread.
    split; [discriminate|]. by intros [? _].
  - destruct (unread_other_pair now now_add db db0 self u olddate0 i u Hok Hrun)
      as [_ ->]; [congruence|].
    tauto.
Qed.

Lemma reading_clears_issue_witness :
  get_unread_issues_nb
    (set_readstates (save_row ReadState.id (ReadState.mk 1 1 5 400))
                    db_two_events)
    project_pony (StoredUser 5) = Ok 0.
Proof.
  apply (reading_clears_issue 400 401 db_two_events _ issue_crash 5 150
           project_pony).
  - exact db_two_events_readstates_ok.
  - reflexivity.
  - intros e He _. simpl in He.
    repeat (apply elem_of_cons in He as [->|He]; [simpl; lia|]).
    inversion He.
Defined.

(** ** Ids without gaps *)

Lemma ids_of_keys (l l' : list Issue.t) (project : Z) :
  (λ i, (Issue.primarykey i, Issue.project i, Issue.id i)) <$> l'
  = (λ i, (Issue.primarykey i, Issue.project i, Issue.id i)) <$> l →
  Issue.id <$> filter (λ i, Issue.project i = project) l'
  = Issue.id <$> filter (λ i, Issue.project i = project) l
  ∧ length (filter (λ i, Issue.project i = project) l')
    = length (filter (λ i, Issue.project i = project) l).
Proof.
  revert l'. induction l as [|x l IH]; intros [|y l'] Heq; try done.
  rewrite !fmap_cons in Heq. injection Heq as Hpk Hproject Hid Hrest.
  destruct (IH l' Hrest) as [Hids Hlen].
  rewrite !filter_cons, Hproject.
  case_decide; rewrite ?fmap_cons; simpl; by rewrite ?Hid, Hids, ?Hlen.
Qed.

Lemma next_id_count (db : DB) (project : Project.t) :
  ids_follow_keys db → gapless_ids db →
  next_id db project = qs_count (Project_issues db project) + 1.
Proof.
  intros (_ & _ & Hmono) Hgapless. specialize (Hgapless (Project.id project)).
  unfold next_id, qs_count, Project_issues in *.
  set (L := filter (λ i, Issue.project i = Project.id project) (tracker_issue db))
    in *.
  destruct (qs_last Issue.primarykey L) as [last_issue|] eqn:Hlast.
  - apply qs_last_Some in Hlast as [Hin Hmax].
    assert (Issue.id last_issue ∈ seqZ 1 (Z.of_nat (length L))) as Hrange.
    { rewrite <- Hgapless. apply list_elem_of_fmap. eauto. }
    apply elem_of_seqZ in Hrange.
    assert (Z.of_nat (length L) ∈ Issue.id <$> L) as Htop.
    { rewrite Hgapless. apply elem_of_seqZ. lia. }
    apply list_elem_of_fmap in Htop as (top & Htop & Hin').
    specialize (Hmax top Hin').
    apply list_elem_of_filter in Hin as [Hp Hin].
    apply list_elem_of_filter in Hin' as [Hp' Hin'].
    assert (Issue.id top ≤ Issue.id last_issue)
      by (apply Hmono; auto; congruence).
    lia.
  - apply qs_last_None in Hlast. by rewrite Hlast.
Qed.

Lemma create_issue_gapless now db project title author :
  ids_follow_keys db → gapless_ids db →
  gapless_ids (create_issue now db project title author).
Proof.
  intros Hinv Hgapless p.
  pose proof (next_id_count db project Hinv Hgapless) as Hnext.
  unfold create_issue. cbn [tracker_issue].
  rewrite filter_app, filter_cons, filter_nil. simpl Issue.project.
  case_decide as Hp.
  - rewrite fmap_app, length_app. simpl. rewrite Nat.add_1_r, seqZ_S.
    rewrite <- (Hgapless p). f_equal. f_equal.
    rewrite Hnext. unfold qs_count, Project_issues. rewrite Hp. lia.
  - rewrite app_nil_r. apply Hgapless.
Qed.

Lemma reachable_gapless db : reachable db → gapless_ids db.
Proof.
  induction 1 as [|now db project title author Hreach IH
                  |now now_add o db db' Hreach IH Hself Hrun].
  - intros p. reflexivity.
  - apply create_issue_gapless; [|assumption].
    by apply reachable_invariant.
  - destruct (reachable_invariant db Hreach) as [(Huniq & _) _].
    destruct (run_issue_keys now now_add o db db' Huniq Hself Hrun)
      as [_ Hkeys].
    intros p. destruct (ids_of_keys _ _ p Hkeys) as [-> ->]. apply IH.
Qed.

(** X24.  In every state reached by creating issues and by the write
    operations on stored issues, the ids of a project's issues are 1, 2,
    ... without a gap, in the order of creation, and [Issue.next_id] is the
    number of issues of the project plus one. *)
Theorem ids_without_gaps (db : DB) :
  reachable db →
  gapless_ids db
  ∧ ∀ project, next_id db project = qs_count (Project_issues db project) + 1.
Proof.
  intros Hreach. pose proof (reachable_gapless db Hreach) as Hgapless.
  split; [assumption|]. intros project.
  apply next_id_count; [|assumption]. by apply reachable_invariant.
Qed.

Lemma ids_without_gaps_witness :
  gapless_ids db_two_projects
  ∧ ∀ project,
      next_id db_two_projects project
      = qs_count (Project_issues db_two_projects project) + 1.
Proof. apply ids_without_gaps. repeat constructor. Defined.

(** ** A finished milestone *)

Lemma length_filter_all {A : Type} (P : A → Prop) `{∀ x, Decision (P x)}
    (l : list A) :
  length (filter P l) = length l ↔ ∀ x, x ∈ l → P x.
Proof.
  split.
  - induction l as [|y l IH]; intros Hlen x Hx; [inversion Hx|].
    rewrite filter_cons in Hlen. pose proof (length_filter P l).
    case_decide; simpl in Hlen; [|lia].
    apply elem_of_cons in Hx as [->|Hx]; [assumption|].
    apply IH; [lia|assumption].
  - intros Hall. by rewrite filter_all.
Qed.

(** X25.  For a milestone with issues (fewer than [2 ^ 47]), [progress] is
    100 exactly when every issue of the milestone is closed, and 0 exactly
    when fewer than one issue in a hundred is. *)
Theorem progress_complete (db : DB) (self : Milestone.t) :
  total_issues db self < 2 ^ 47 →
  Milestone_issues db self ≠ [] →
  (progress db self = Ok 100
   ↔ ∀ i, i ∈ Milestone_issues db self → Issue.closed i = true)
  ∧ (progress db self = Ok 0
     ↔ 100 * closed_issues db self < total_issues db self).
Proof.
  intros Hsmall Hsome. pose proof (closed_le_total db self) as Hclosed.
  assert (0 < total_issues db self) as Hpos.
  { unfold total_issues, qs_count.
    destruct (Milestone_issues db self); [done|simpl; lia]. }
  assert (progress db self
          = Ok ((100 * closed_issues db self) `div` total_issues db self))
    as ->.
  { unfold progress. rewrite decide_True by lia.
    apply true_divide_floor; lia. }
  split.
  - rewrite <- (length_filter_all (λ i, Issue.closed i = true)). split.
    + intros [= Hdiv].
      pose proof (Z.mul_div_le (100 * closed_issues db self)
                    (total_issues db self) Hpos) as Hle.
      rewrite Hdiv in Hle. unfold closed_issues, total_issues, qs_count in *.
      lia.
    + intros Hlen.
      assert (closed_issues db self = total_issues db self) as ->
        by (unfold closed_issues, total_issues, qs_count; by rewrite Hlen).
      f_equal. apply Z.div_mul. lia.
  - split.
    + intros [= Hdiv]. apply Z.div_small_iff in Hdiv; lia.
    + intros Hlt. f_equal. apply Z.div_small. lia.
Qed.

Lemma progress_complete_witness :
  (progress db_milestone milestone_v1 = Ok 100
   ↔ ∀ i, i ∈ Milestone_issues db_milestone milestone_v1 → Issue.closed i = true)
  ∧ (progress db_milestone milestone_v1 = Ok 0
     ↔ 100 * closed_issues db_milestone milestone_v1
       < total_issues db_milestone milestone_v1).
Proof.
  apply progress_complete.
  - vm_compute. reflexivity.
  - discriminate.
Defined.

(** ** Labels of an issue and labels of a project *)

(** X26.  [Issue.labels] does not look at the [deleted] flag: a stored
    label that is linked to an issue is among the labels of the issue even
    when it is soft-deleted and therefore absent from the labels of its
    project. *)
Theorem deleted_label_stays_on_issue (db : DB) (self : Issue.t)
    (project : Project.t) (label : Label.t) :
  label ∈ tracker_label db →
  (Issue.primarykey self, Label.id label) ∈ tracker_issue_labels db →
  label ∈ Issue_labels db self
  ∧ (Label.deleted label = true → label ∉ Project_labels db project)
  ∧ (Label.deleted label = false → Label.project label = Project.id project →
     label ∈ Project_labels db project).
Proof.
  intros Hstored Hlinked. unfold Issue_labels, Project_labels.
  rewrite !list_elem_of_filter. split; [by split|]. split.
  - intros Hdel [[_ Hflag] _]. congruence.
  - by intros.
Qed.

Lemma deleted_label_stays_on_issue_witness :
  label_old ∈ Issue_labels db_two_events issue_crash
  ∧ (Label.deleted label_old = true →
     label_old ∉ Project_labels db_two_events project_pony)
  ∧ (Label.deleted label_old = false →
     Label.project label_old = Project.id project_pony →
     label_old ∈ Project_labels db_two_events project_pony).
Proof.
  apply (deleted_label_stays_on_issue db_two_events issue_crash project_pony
           label_old).
  - by right; left.
  - by left.
Defined.

(** ** The newest comment *)

(** X27.  Under the until-next-comment policy the author holding only the
    modify-own permission can always edit the newest comment: a comment of
    the issue that no other comment of the issue is dated after. *)
Theorem newest_comment_editable (now : datetime) (db : DB) (self : Event.t)
    (request : Request) (issue : Issue.t) :
  self ∈ Issue_comments db issue →
  (∀ e, e ∈ Issue_comments db issue → Event.date e ≤ Event.date self) →
  Issue_objects_get db (Event.issue self) = Ok issue →
  user_is (Event.author self) (user request) = true →
  has_perm request "modify_own_comment" (Issue.project issue) = true →
  has_perm request "modify_comment" (Issue.project issue) = false →
  has_perm request "modify_issue" (Issue.project issue) = false →
  Settings.edit_policy (settings request) = Settings.EDIT_NOMORECOMMENT →
  editable_by now db self request = Ok true.
Proof.
  intros Hself Hnewest Hissue Hauthor Hown Hcomment Hmodify Hpolicy.
  pose proof Hself as [Hcode _]%list_elem_of_filter.
  rewrite (editable_by_own now db self request issue) by auto.
  rewrite Hpolicy, decide_False, decide_True by done.
  rewrite filter_none; [reflexivity|].
  intros e He [Hecode Hlater].
  assert (Event.date e ≤ Event.date self); [|lia].
  apply Hnewest. unfold Issue_comments. by apply list_elem_of_filter.
Qed.

Lemma newest_comment_editable_witness :
  editable_by 500 db_two_events event_comment
    (mkRequest (StoredUser 6)
               (λ perm _, bool_decide (perm = "modify_own_comment"))
               (Settings.mk 25 Settings.EDIT_NOMORECOMMENT 30))
  = Ok true.
Proof.
  apply (newest_comment_editable 500 db_two_events event_comment _ issue_crash);
    try reflexivity.
  - apply list_elem_of_filter. split; [reflexivity|].
    apply list_elem_of_filter. split; [reflexivity|]. by right; left.
  - intros e [Hcode He]%list_elem_of_filter.
    apply list_elem_of_filter in He as [_ He]. simpl in He.
    repeat (apply elem_of_cons in He as [->|He]; [simpl; first [lia|discriminate]|]).
    inversion He.
Defined.

(** ** The properties at the sample data, continued *)

Lemma overdue_stays_witness :
  overdue 500 (Issue.mk 9 1 9 "late" 5 100 (Some 300) false None None) = true.
Proof.
  apply (overdue_stays 400 500
           (Issue.mk 9 1 9 "late" 5 100 (Some 300) false None None)).
  - lia.
  - reflexivity.
Defined.

(** ** Soft deletion as a write *)

Section save_row_facts.
Context {A : Type} (pk : A → Z).

Lemma save_row_elem (row row' : A) (table : list A) :
  unique_on pk table → row ∈ table → pk row' = pk row →
  ∀ x, x ∈ save_row pk row' table ↔ (x ∈ table ∧ x ≠ row) ∨ x = row'.
Proof.
  intros Huniq Hin Hpk x.
  rewrite (save_row_stored pk row row') by done.
  rewrite list_elem_of_fmap. split.
  - intros (y & -> & Hy). case_decide as Hid; [by right|].
    left. split; [assumption|]. intros ->. by apply Hid.
  - intros [[Hx Hne] | ->].
    + exists x. split; [|assumption]. rewrite decide_False; [reflexivity|].
      intros Hid. apply Hne. apply (unique_on_inj pk table); auto. congruence.
    + exists row. split; [|assumption]. by rewrite decide_True.
Qed.

Lemma save_row_lookup (row row' : A) (table : list A) :
  unique_on pk table → row ∈ table → pk row' = pk row →
  filter (λ r, pk r = pk row) (save_row pk row' table) = [row'].
Proof.
  intros Huniq Hin Hpk.
  rewrite (save_row_stored pk row row') by done. rewrite <- Hpk.
  apply (filter_unique_on pk).
  - unfold unique_on. rewrite fmap_key_preserved; [assumption|].
    intros x Hx. by case_decide.
  - apply list_elem_of_fmap. exists row. by rewrite decide_True.
Qed.
End save_row_facts.

(** C6.  [Project.labels] and [Project.milestones] list exactly the rows of
    the project whose [deleted] flag is unset, so a flagged record is in
    neither.  Soft-deleting a stored label or milestone takes it, and it
    alone, out of these lists, while the record stays stored under its id
    with its other columns as they were, and the events, the issues and
    the links between issues and labels are what they were: every event
    naming the record is still there and still finds it. *)
Theorem soft_deletion_hides_only (db : DB) (project : Project.t) :
  (∀ l, Label.deleted l = true → l ∉ Project_labels db project)
  ∧ (∀ m, Milestone.deleted m = true → m ∉ Project_milestones db project)
  ∧ (∀ l, l ∈ Project_labels db project
          ↔ l ∈ tracker_label db ∧ Label.project l = Project.id project
            ∧ Label.deleted l = false)
  ∧ (∀ m, m ∈ Project_milestones db project
          ↔ m ∈ tracker_milestone db ∧ Milestone.project m = Project.id project
            ∧ Milestone.deleted m = false)
  ∧ (∀ label,
       unique_on Label.id (tracker_label db) → label ∈ tracker_label db →
       let db' := soft_delete_label db label in
       let flagged := Label_set_deleted label in
       (∀ l, l ∈ Project_labels db' project
             ↔ l ∈ Project_labels db project ∧ Label.id l ≠ Label.id label)
       ∧ (∀ l, l ∈ tracker_label db'
               ↔ (l ∈ tracker_label db ∧ l ≠ label) ∨ l = flagged)
       ∧ Label_objects_get db' (Label.id label) = Ok flagged
       ∧ Label.id flagged = Label.id label
       ∧ Label.project flagged = Label.project label
       ∧ Label.name flagged = Label.name label
       ∧ Label.color flagged = Label.color label
       ∧ Label.inverted flagged = Label.inverted label
       ∧ tracker_event db' = tracker_event db
       ∧ tracker_issue_labels db' = tracker_issue_labels db
       ∧ tracker_issue db' = tracker_issue db)
  ∧ (∀ milestone,
       unique_on Milestone.id (tracker_milestone db) →
       milestone ∈ tracker_milestone db →
       let db' := soft_delete_milestone db milestone in
       let flagged := Milestone_set_deleted milestone in
       (∀ m, m ∈ Project_milestones db' project
             ↔ m ∈ Project_milestones db project
               ∧ Milestone.id m ≠ Milestone.id milestone)
       ∧ (∀ m, m ∈ tracker_milestone db'
               ↔ (m ∈ tracker_milestone db ∧ m ≠ milestone) ∨ m = flagged)
       ∧ Milestone_objects_get db' (Milestone.id milestone) = Ok flagged
       ∧ Milestone.id flagged = Milestone.id milestone
       ∧ Milestone.project flagged = Milestone.project milestone
       ∧ Milestone.name flagged = Milestone.name milestone
       ∧ Milestone.due_date flagged = Milestone.due_date milestone
       ∧ Milestone.closed flagged = Milestone.closed milestone
       ∧ tracker_event db' = tracker_event db
       ∧ tracker_issue db' = tracker_issue db
       ∧ Milestone_issues db' flagged = Milestone_issues db milestone).
Proof.
  split; [|split; [|split; [|split; [|split]]]].
  - intros l Hdel [[_ Hflag] _]%list_elem_of_filter. congruence.
  - intros m Hdel [[_ Hflag] _]%list_elem_of_filter. congruence.
  - intros l. unfold Project_labels. rewrite list_elem_of_filter. tauto.
  - intros m. unfold Project_milestones. rewrite list_elem_of_filter. tauto.
  - intros label Huniq Hin db' flagged. subst db' flagged.
    pose proof (save_row_elem Label.id label (Label_set_deleted label)
                  (tracker_label db) Huniq Hin eq_refl) as Helem.
    split; [|split; [exact Helem|split]].
    + intros l. unfold Project_labels, soft_delete_label, set_labels.
      cbn [tracker_label]. rewrite !list_elem_of_filter, Helem. split.
      * intros [[Hp Hflag] [[Hl Hne] | ->]]; [|discriminate Hflag].
        split; [by split|]. intros Hid. apply Hne.
        by apply (unique_on_inj Label.id (tracker_label db)).
      * intros [[Hp Hl] Hid]. split; [assumption|]. left.
        split; [assumption|]. intros ->. by apply Hid.
    + unfold Label_objects_get, soft_delete_label, set_labels.
      cbn [tracker_label].
      by rewrite (save_row_lookup Label.id label (Label_set_deleted label)).
    + by repeat split.
  - intros milestone Huniq Hin db' flagged. subst db' flagged.
    pose proof (save_row_elem Milestone.id milestone
                  (Milestone_set_deleted milestone)
                  (tracker_milestone db) Huniq Hin eq_refl) as Helem.
    split; [|split; [exact Helem|split]].
    + intros m. unfold Project_milestones, soft_delete_milestone,
        set_milestones.
      cbn [tracker_milestone]. rewrite !list_elem_of_filter, Helem. split.
      * intros [[Hp Hflag] [[Hm Hne] | ->]]; [|discriminate Hflag].
        split; [by split|]. intros Hid. apply Hne.
        by apply (unique_on_inj Milestone.id (tracker_milestone db)).
      * intros [[Hp Hm] Hid]. split; [assumption|]. left.
        split; [assumption|]. intros ->. by apply Hid.
    + unfold Milestone_objects_get, soft_delete_milestone, set_milestones.
      cbn [tracker_milestone].
      by rewrite (save_row_lookup Milestone.id milestone
                    (Milestone_set_deleted milestone)).
    + by repeat split.
Qed.

Lemma soft_deletion_hides_only_witness :
  (∀ l, l ∈ Project_labels (soft_delete_label db_two_events label_bug) project_pony
        ↔ l ∈ Project_labels db_two_events project_pony
          ∧ Label.id l ≠ Label.id label_bug)
  ∧ Label_objects_get (soft_delete_label db_two_events label_bug) 1
    = Ok (Label_set_deleted label_bug)
  ∧ tracker_event (soft_delete_label db_two_events label_bug)
    = tracker_event db_two_events.
Proof.
  destruct (soft_deletion_hides_only db_two_events project_pony)
    as (_ & _ & _ & _ & Hlabel & _).
  destruct (Hlabel label_bug)
    as (Hhidden & _ & Hkept & _ & _ & _ & _ & _ & Hevents & _).
  - unfold unique_on. simpl.
    repeat (apply NoDup_cons; split;
            [rewrite ?elem_of_cons, elem_of_nil; lia|]).
    apply NoDup_nil_2.
  - by left.
  - exact (conj Hhidden (conj Hkept Hevents)).
Defined.
